(** * LMAXDisruptor: a single-producer, multi-consumer ring buffer

    A shallow embedding of [LMAXDisruptor.cpp] and the properties of its
    gating arithmetic.

    - Fixed-width unsigned integers are [Z] with the wrap-around written out.
    - [Block] and [RingBuffer] are records; an array is a list read with
      [!!] and updated with [<[ _ := _ ]>].
    - An access outside an array (the [memcpy] in [Write] and [Read] checks
      nothing) is undefined behaviour in C++; the embedding returns
      [Overrun] there, anything else is [Done].
    - The threads are interleaved one loop iteration at a time: the loop test
      and the body of an iteration of [producer] or [consumer] are one
      transition of the system, the rebase of the counters at [ull_max]
      included, and so is each statement of [main] that touches the shared
      flags or the threads. The order of the single loads and stores inside
      an iteration, and the memory orders given to them, are below this
      level. *)

From Stdlib Require Import ZArith List Lia Bool Strings.Byte.
From stdpp Require Import base list.
Import ListNotations.

Local Open Scope Z_scope.

(** ** Fixed-width unsigned arithmetic *)

Definition to_uint8 (x : Z) : Z := x mod 2 ^ 8.
Definition to_uint32 (x : Z) : Z := x mod 2 ^ 32.
Definition to_uint64 (x : Z) : Z := x mod 2 ^ 64.

(** [a - b], [a + b] and [a * b] on [uint64_t]. *)
Definition sub64 (a b : Z) : Z := to_uint64 (a - b).
Definition add64 (a b : Z) : Z := to_uint64 (a + b).
Definition mul64 (a b : Z) : Z := to_uint64 (a * b).

(** ** Results of code that may run past an array *)

Inductive outcome (A : Type) : Type :=
| Done (a : A)
| Overrun.
Arguments Done {A} a.
Arguments Overrun {A}.

Definition bind {A B : Type} (m : outcome A) (f : A -> outcome B) : outcome B :=
  match m with
  | Done a => f a
  | Overrun => Overrun
  end.

Notation "'let*' x ':=' m 'in' k" := (bind m (fun x => k))
  (at level 10, x name, m at level 100, k at level 200).

(** [a[i]] on an array [a]: defined inside the array only. *)
Definition at_index {A : Type} (a : list A) (i : Z) : outcome A :=
  if i <? 0 then Overrun
  else match a !! Z.to_nat i with
       | Some x => Done x
       | None => Overrun
       end.

(** [std::memcpy(dst, src, n)] where [dst] and [src] are the arrays the two
    pointers point into: the first [n] bytes of [dst] are replaced. *)
Definition memcpy (dst src : list byte) (n : Z) : outcome (list byte) :=
  if (n <=? Z.of_nat (length src)) && (n <=? Z.of_nat (length dst))
  then Done (take (Z.to_nat n) src ++ drop (Z.to_nat n) dst)
  else Overrun.

(** ** Block and RingBuffer *)

Module Block.
Record t : Type := mk { data : list byte; size_ : Z }.

(** [uint8_t data[63]] *)
Definition data_len : Z := 63.
End Block.

Module RingBuffer.
Record t : Type := mk { buffer : list Block.t; l : Z }.

(** [RingBuffer(uint32_t power)]. [new Block[size]] leaves the blocks
    uninitialised: [fresh i] is whatever block [i] holds then. *)
Definition new (fresh : nat -> Block.t) (power : Z) : t :=
  let size := to_uint32 (Z.shiftl 1 power) in
  {| buffer := fresh <$> seq 0 (Z.to_nat size);
     l := to_uint32 (size - 1) |}.

(** The two statements of [Write] after the index is computed. *)
Definition store_size (b : t) (idx : Z) (size : Z) : outcome t :=
  let* blk := at_index (buffer b) idx in
  Done {| buffer := <[Z.to_nat idx := {| Block.data := Block.data blk;
                                          Block.size_ := size |}]> (buffer b);
          l := l b |}.

Definition store_data (b : t) (idx : Z) (data : list byte) (size : Z) : outcome t :=
  let* blk := at_index (buffer b) idx in
  let* d := memcpy (Block.data blk) data size in
  Done {| buffer := <[Z.to_nat idx := {| Block.data := d;
                                          Block.size_ := Block.size_ blk |}]> (buffer b);
          l := l b |}.

Definition Write (b : t) (block_idx : Z) (data : list byte) (size : Z) : outcome t :=
  let idx := Z.land block_idx (l b) in
  let* b1 := store_size b idx size in
  store_data b1 idx data size.

(** [Read] fills the caller's [data] and [size]; both are returned. *)
Definition Read (b : t) (block_idx : Z) (data : list byte) : outcome (list byte * Z) :=
  let idx := Z.land block_idx (l b) in
  let* blk := at_index (buffer b) idx in
  let size := Block.size_ blk in
  let* d := memcpy data (Block.data blk) size in
  Done (d, size).
End RingBuffer.

(** ** The globals *)

(** [Counter sequence], [consumer_sequences[numConsumers]], [buffer] and the
    two flags, together with what [main] and the threads it starts are doing.
    A [Counter] has the one field [sequence], a [uint64_t]: a counter is the
    value of that field. *)

Definition numConsumers : Z := 4.
Definition p : Z := 8.
Definition size_ : Z := to_uint32 (Z.shiftl 1 p).
Definition ull_max : Z := 2 ^ 64 - 1.

Inductive thread_state : Type :=
| NotStarted
| Running
| Finished.

(** Where [main] stands: the statement it executes next. *)
Inductive main_pc : Type :=
| StartProducer
| StartConsumer (i : Z)
| StopProducer
| JoinProducer
| StopConsumers
| JoinConsumer (i : Z)
| Exit.

Record state : Type := mkState {
  sequence : Z;
  consumer_sequences : list Z;
  buffer : RingBuffer.t;
  producer_running : bool;
  consumer_running : bool;
  producer_thread : thread_state;
  consumer_threads : list thread_state;
  main_at : main_pc
}.

(** ** std::to_string and the message *)

Definition digit (d : Z) : byte :=
  match d with
  | 0 => "0" | 1 => "1" | 2 => "2" | 3 => "3" | 4 => "4"
  | 5 => "5" | 6 => "6" | 7 => "7" | 8 => "8" | _ => "9"
  end%byte.

(** Decimal digits of [n], most significant first, in front of [acc]. Every
    round divides [n] by ten; [fuel] bounds the number of rounds. *)
Fixpoint digits (fuel : nat) (n : Z) (acc : list byte) : list byte :=
  match fuel with
  | O => acc
  | S fuel' =>
      if n <? 10 then digit n :: acc
      else digits fuel' (n / 10) (digit (n mod 10) :: acc)
  end.

(** [std::to_string] on an unsigned value. A number of [k] bits has at most
    [k] decimal digits, so the fuel never runs out ([to_string_value]). *)
Definition to_string (n : Z) : list byte :=
  digits (S (Z.to_nat (Z.log2 n))) n [].

Definition Message_prefix : list byte :=
  ["M"; "e"; "s"; "s"; "a"; "g"; "e"; ":"; " "]%byte.

(** ["Message: " + std::to_string(sequence.sequence)] *)
Definition message_of (s : Z) : list byte := Message_prefix ++ to_string s.

(** [message.c_str()]: the characters and the terminating NUL. *)
Definition c_str (message : list byte) : list byte := message ++ [x00].

(** [message.size()] *)
Definition size (message : list byte) : Z := Z.of_nat (length message).

(** ** Assignments to the globals *)

Definition set_sequence (v : Z) (st : state) : state :=
  mkState v (consumer_sequences st) (buffer st) (producer_running st)
    (consumer_running st) (producer_thread st) (consumer_threads st) (main_at st).

Definition set_consumer_sequences (v : list Z) (st : state) : state :=
  mkState (sequence st) v (buffer st) (producer_running st)
    (consumer_running st) (producer_thread st) (consumer_threads st) (main_at st).

Definition set_buffer (v : RingBuffer.t) (st : state) : state :=
  mkState (sequence st) (consumer_sequences st) v (producer_running st)
    (consumer_running st) (producer_thread st) (consumer_threads st) (main_at st).

Definition set_producer_running (v : bool) (st : state) : state :=
  mkState (sequence st) (consumer_sequences st) (buffer st) v
    (consumer_running st) (producer_thread st) (consumer_threads st) (main_at st).

Definition set_consumer_running (v : bool) (st : state) : state :=
  mkState (sequence st) (consumer_sequences st) (buffer st) (producer_running st)
    v (producer_thread st) (consumer_threads st) (main_at st).

Definition set_producer_thread (v : thread_state) (st : state) : state :=
  mkState (sequence st) (consumer_sequences st) (buffer st) (producer_running st)
    (consumer_running st) v (consumer_threads st) (main_at st).

Definition set_consumer_threads (v : list thread_state) (st : state) : state :=
  mkState (sequence st) (consumer_sequences st) (buffer st) (producer_running st)
    (consumer_running st) (producer_thread st) v (main_at st).

Definition set_main_at (v : main_pc) (st : state) : state :=
  mkState (sequence st) (consumer_sequences st) (buffer st) (producer_running st)
    (consumer_running st) (producer_thread st) (consumer_threads st) v.

(** ** producer *)

(** The [for] loop that computes [cont]: it breaks at the first consumer
    whose distance to the producer is a full buffer or more. *)
Fixpoint gate (s : Z) (consumers : list Z) : bool :=
  match consumers with
  | [] => true
  | c :: rest =>
      let diff := sub64 s c in
      if size_ <=? diff then false else gate s rest
  end.

(** [c] and [c * size_] of the overflow branch. *)
Definition epochs : Z := sub64 (ull_max / size_) 2.
Definition rebase_amount : Z := mul64 epochs size_.

(** The body of [if (sequence.sequence == ull_max)]; the line it prints is
    left out. *)
Definition rebase (st : state) : state :=
  let st1 :=
    set_consumer_sequences
      ((fun c => sub64 c rebase_amount) <$> consumer_sequences st) st in
  set_sequence (sub64 (sequence st1) rebase_amount) st1.

Definition overflow_check (st : state) : state :=
  if sequence st =? ull_max then rebase st else st.

(** The last three statements of the loop body, for a message [message]. *)
Definition publish (message : list byte) (st : state) : outcome state :=
  let* b := RingBuffer.Write (buffer st) (to_uint32 (sequence st))
              (c_str message) (to_uint8 (size message + 1)) in
  Done (set_sequence (add64 (sequence st) 1) (set_buffer b st)).

(** One iteration of the [while] loop of [producer]. *)
Definition producer_iter (st : state) : outcome state :=
  let cont := gate (sequence st) (consumer_sequences st) in
  if negb cont then Done st
  else
    let st1 := overflow_check st in
    publish (message_of (sequence st1)) st1.

(** The producer thread: the loop test, then the body or the return. *)
Definition producer (st : state) : outcome state :=
  match producer_thread st with
  | Running =>
      if producer_running st then producer_iter st
      else Done (set_producer_thread Finished st)
  | _ => Done st
  end.

(** ** consumer *)

(** [uint8_t data[64]] of the loop body; it is not initialised, and only the
    bytes [Read] copies into it are looked at. *)
Definition local_data : list byte := replicate 64 x00.

(** The condition of the [if]: [&&] and [||] evaluate their right operand
    only when needed. *)
Definition consumer_admitted (consumer_id next_consumer_id : Z) (st : state)
  : outcome bool :=
  let* c := at_index (consumer_sequences st) consumer_id in
  if c <? sequence st then
    if next_consumer_id =? -1 then Done true
    else
      let* n := at_index (consumer_sequences st) next_consumer_id in
      Done (c <? n)
  else Done false.

(** One iteration of the [while] loop of [consumer]: the new state and what
    was read, if anything. *)
Definition consumer_iter (consumer_id next_consumer_id : Z) (st : state)
  : outcome (state * option (list byte * Z)) :=
  let* ok := consumer_admitted consumer_id next_consumer_id st in
  if ok then
    let* c := at_index (consumer_sequences st) consumer_id in
    let* r := RingBuffer.Read (buffer st) (to_uint32 c) local_data in
    Done (set_consumer_sequences
            (<[Z.to_nat consumer_id := add64 c 1]> (consumer_sequences st)) st,
          Some r)
  else Done (st, None).

(** The condition of the [while]. *)
Definition consumer_continues (consumer_id : Z) (st : state) : outcome bool :=
  if consumer_running st then Done true
  else
    let* c := at_index (consumer_sequences st) consumer_id in
    Done (c <? sequence st).

(** [next_consumer_id] as [main] passes it to thread [i]. *)
Definition next_of (i : Z) : Z :=
  if i =? numConsumers - 1 then -1 else i + 1.

(** Consumer thread [i]: the loop test, then the body or the return. *)
Definition consumer (i : Z) (st : state) : outcome state :=
  if i <? 0 then Done st
  else
    match consumer_threads st !! Z.to_nat i with
    | Some Running =>
        let* more := consumer_continues i st in
        if more then
          let* r := consumer_iter i (next_of i) st in
          Done (fst r)
        else
          Done (set_consumer_threads
                  (<[Z.to_nat i := Finished]> (consumer_threads st)) st)
    | _ => Done st
    end.

(** ** main *)

(** One statement of [main]; a [join] on a thread that still runs waits. *)
Definition main (st : state) : state :=
  match main_at st with
  | StartProducer =>
      set_main_at (StartConsumer 0) (set_producer_thread Running st)
  | StartConsumer i =>
      if i <? numConsumers then
        set_main_at (StartConsumer (i + 1))
          (set_consumer_threads
             (<[Z.to_nat i := Running]> (consumer_threads st)) st)
      else set_main_at StopProducer st
  | StopProducer =>
      set_main_at JoinProducer (set_producer_running false st)
  | JoinProducer =>
      match producer_thread st with
      | Finished => set_main_at StopConsumers st
      | _ => st
      end
  | StopConsumers =>
      set_main_at (JoinConsumer 0) (set_consumer_running false st)
  | JoinConsumer i =>
      if i <? numConsumers then
        match consumer_threads st !! Z.to_nat i with
        | Some Finished => set_main_at (JoinConsumer (i + 1)) st
        | _ => st
        end
      else set_main_at Exit st
  | Exit => st
  end.

(** ** The system *)

(** The state before [main] runs. *)
Definition init (fresh : nat -> Block.t) : state :=
  {| sequence := 0;
     consumer_sequences := replicate (Z.to_nat numConsumers) 0;
     buffer := RingBuffer.new fresh p;
     producer_running := true;
     consumer_running := true;
     producer_thread := NotStarted;
     consumer_threads := replicate (Z.to_nat numConsumers) NotStarted;
     main_at := StartProducer |}.

Inductive thread : Type :=
| Main
| Producer
| Consumer (i : Z).

(** The thread [t] takes one step. *)
Definition step (t : thread) (st : state) : outcome state :=
  match t with
  | Main => Done (main st)
  | Producer => producer st
  | Consumer i => consumer i st
  end.

(** The threads step in the order [sched] gives. *)
Fixpoint run (sched : list thread) (st : state) : outcome state :=
  match sched with
  | [] => Done st
  | t :: rest => let* st1 := step t st in run rest st1
  end.

(** The states the program can be in. *)
Inductive reachable (fresh : nat -> Block.t) : state -> Prop :=
| reachable_init : reachable fresh (init fresh)
| reachable_step t st st1 :
    reachable fresh st -> step t st = Done st1 -> reachable fresh st1.

(** ** Initial contents and schedules of the examples *)

Definition zeroed (i : nat) : Block.t :=
  {| Block.data := replicate 63 x00; Block.size_ := 0 |}.

(** Blocks that hold leftovers: a length no payload can have. *)
Definition littered (i : nat) : Block.t :=
  {| Block.data := replicate 63 xff; Block.size_ := 200 |}.

Definition start_all : list thread := replicate 6 Main.

(** ** Vocabulary of the properties *)

(** The number a string of decimal digits denotes. *)
Definition digit_value (b : byte) : Z := Z.of_N (Byte.to_N b) - 48.

Definition decimal_value (ds : list byte) : Z :=
  fold_left (fun v b => 10 * v + digit_value b) ds 0.

(** [data] of a block is [uint8_t data[63]] and [size_] a [uint8_t]. *)
Definition block_ok (blk : Block.t) : Prop :=
  Z.of_nat (length (Block.data blk)) = Block.data_len /\
  0 <= Block.size_ blk < 2 ^ 8.

(** A ring of [2 ^ k] blocks with the mask [2 ^ k - 1]. *)
Definition ring_ok (k : Z) (b : RingBuffer.t) : Prop :=
  0 <= k /\
  RingBuffer.l b = 2 ^ k - 1 /\
  Z.of_nat (length (RingBuffer.buffer b)) = 2 ^ k /\
  Forall block_ok (RingBuffer.buffer b).

(** The slot a block index selects. *)
Definition slot (k : Z) (block_idx : Z) : nat := Z.to_nat (block_idx mod 2 ^ k).

(** The block [Write] leaves in the slot. *)
Definition written (old : Block.t) (data : list byte) (size : Z) : Block.t :=
  {| Block.data := take (Z.to_nat size) data
                   ++ drop (Z.to_nat size) (Block.data old);
     Block.size_ := size |}.


(** The smallest of the consumers' sequences. *)
Definition min_consumer (cs : list Z) : Z :=
  match cs with
  | [] => 0
  | c :: rest => fold_left Z.min rest c
  end.

(** The producer is at most one buffer ahead of the slowest consumer. *)
Definition safety (st : state) : Prop :=
  sequence st - min_consumer (consumer_sequences st) <= size_.

(** The producer's admission condition, one difference per consumer. *)
Definition producer_admitted (st : state) : Prop :=
  forall i c, consumer_sequences st !! i = Some c -> sub64 (sequence st) c < size_.

(** [consumer_running] is still set while [main] stands here. *)
Definition flag_up (pc : main_pc) : bool :=
  match pc with
  | JoinConsumer _ | Exit => false
  | _ => true
  end.

(** [main] has come past [producer_thread.join()]. *)
Definition joined (pc : main_pc) : bool :=
  match pc with
  | StopConsumers | JoinConsumer _ | Exit => true
  | _ => false
  end.

(** The counters: every consumer is behind the producer by at most a
    buffer, and behind the consumer after it in the array. *)
Definition counters_ok (st : state) : Prop :=
  length (consumer_sequences st) = Z.to_nat numConsumers /\
  0 <= sequence st <= ull_max /\
  (forall i c, consumer_sequences st !! i = Some c ->
     0 <= c <= sequence st /\ sequence st - c <= size_) /\
  (forall i c c', consumer_sequences st !! i = Some c ->
     consumer_sequences st !! S i = Some c' -> c <= c').

(** The ring: every slot written so far holds a length of at most 30. *)
Definition slots_ok (st : state) : Prop :=
  ring_ok p (buffer st) /\
  (forall j blk, RingBuffer.buffer (buffer st) !! j = Some blk ->
     Z.of_nat j < sequence st \/ size_ <= sequence st ->
     Block.size_ blk <= 30).

(** The threads: [consumer_running] is cleared after the producer has
    returned, and a consumer that has returned has read all there is. *)
Definition control_ok (st : state) : Prop :=
  length (consumer_threads st) = Z.to_nat numConsumers /\
  (flag_up (main_at st) = true -> consumer_running st = true) /\
  (flag_up (main_at st) = false -> joined (main_at st) = true) /\
  (joined (main_at st) = true -> producer_thread st = Finished) /\
  (forall i, consumer_threads st !! i = Some Finished ->
     consumer_running st = false /\
     consumer_sequences st !! i = Some (sequence st)).

Record Inv (st : state) : Prop := mkInv {
  inv_counters : counters_ok st;
  inv_slots : slots_ok st;
  inv_control : control_ok st
}.

(** What holds between the overflow check and the write: as [Inv], with
    room for one more sequence number. *)
Definition ready (st : state) : Prop :=
  length (consumer_sequences st) = Z.to_nat numConsumers /\
  0 <= sequence st < ull_max /\
  (forall i c, consumer_sequences st !! i = Some c ->
     0 <= c <= sequence st /\ sequence st - c < size_) /\
  (forall i c c', consumer_sequences st !! i = Some c ->
     consumer_sequences st !! S i = Some c' -> c <= c') /\
  slots_ok st /\
  control_ok st /\
  producer_thread st <> Finished.

(** * Properties *)

(** ** Constants and fixed-width arithmetic *)

Lemma size__eq : size_ = 256.
Proof. reflexivity. Qed.

Lemma ull_max_eq : ull_max = 18446744073709551615.
Proof. reflexivity. Qed.

Lemma epochs_eq : epochs = 2 ^ 56 - 3.
Proof. reflexivity. Qed.

Lemma rebase_amount_eq : rebase_amount = 2 ^ 64 - 768.
Proof. reflexivity. Qed.

Lemma to_uint64_small x : 0 <= x <= ull_max -> to_uint64 x = x.
Proof.
  intros H. unfold to_uint64. apply Z.mod_small.
  rewrite ull_max_eq in H. change (2 ^ 64) with 18446744073709551616. lia.
Qed.

Lemma to_uint64_range x : 0 <= to_uint64 x <= ull_max.
Proof.
  unfold to_uint64. rewrite ull_max_eq.
  pose proof (Z.mod_pos_bound x (2 ^ 64) eq_refl) as H.
  change (2 ^ 64) with 18446744073709551616 in *. lia.
Qed.

Lemma sub64_exact a b : 0 <= b <= a -> a <= ull_max -> sub64 a b = a - b.
Proof. intros ? ?. unfold sub64. apply to_uint64_small. lia. Qed.

Lemma add64_exact a b : 0 <= a -> 0 <= b -> a + b <= ull_max -> add64 a b = a + b.
Proof. intros ? ? ?. unfold add64. apply to_uint64_small. lia. Qed.

(** A mask of [k] one bits takes the remainder modulo [2 ^ k]. *)
Lemma land_mask k x : 0 <= k -> Z.land x (2 ^ k - 1) = x mod 2 ^ k.
Proof.
  intros Hk. rewrite <- Z.land_ones by assumption.
  f_equal. rewrite Z.ones_equiv. lia.
Qed.

Lemma mod_mod_pow2 x j k : 0 <= k <= j -> (x mod 2 ^ j) mod 2 ^ k = x mod 2 ^ k.
Proof.
  intros H. replace j with (k + (j - k)) by lia.
  rewrite Z.pow_add_r by lia.
  assert (0 < 2 ^ k) by (apply Z.pow_pos_nonneg; lia).
  assert (0 < 2 ^ (j - k)) by (apply Z.pow_pos_nonneg; lia).
  rewrite Z.rem_mul_r by lia.
  rewrite (Z.mul_comm (2 ^ k)), Z.mod_add by lia.
  apply Z.mod_mod. lia.
Qed.

(** ** std::to_string *)

Lemma digit_value_digit d : 0 <= d < 10 -> digit_value (digit d) = d.
Proof.
  intros H.
  assert (d = 0 \/ d = 1 \/ d = 2 \/ d = 3 \/ d = 4 \/
          d = 5 \/ d = 6 \/ d = 7 \/ d = 8 \/ d = 9) as Hd by lia.
  repeat (destruct Hd as [-> | Hd]; [reflexivity |]). subst d. reflexivity.
Qed.

Lemma fold_digits_app ds v :
  fold_left (fun v b => 10 * v + digit_value b) ds v
  = v * 10 ^ Z.of_nat (length ds) + decimal_value ds.
Proof.
  unfold decimal_value. revert v.
  induction ds as [| b ds IH]; intros v.
  - simpl. lia.
  - cbn [fold_left length]. rewrite IH, (IH (10 * 0 + digit_value b)).
    rewrite Nat2Z.inj_succ, Z.pow_succ_r by lia. lia.
Qed.

Lemma decimal_value_cons b ds :
  decimal_value (b :: ds)
  = digit_value b * 10 ^ Z.of_nat (length ds) + decimal_value ds.
Proof.
  unfold decimal_value at 1. cbn [fold_left].
  rewrite fold_digits_app. reflexivity.
Qed.

Lemma digits_value fuel : forall n acc,
  0 <= n -> Z.log2 n < Z.of_nat fuel ->
  decimal_value (digits fuel n acc)
  = n * 10 ^ Z.of_nat (length acc) + decimal_value acc.
Proof.
  induction fuel as [| fuel IH]; intros n acc Hn Hfuel.
  - pose proof (Z.log2_nonneg n). lia.
  - cbn [digits]. destruct (Z.ltb_spec n 10) as [Hlt | Hge].
    + rewrite decimal_value_cons, digit_value_digit by lia. reflexivity.
    + rewrite IH.
      * rewrite decimal_value_cons, digit_value_digit
          by (apply Z.mod_pos_bound; lia).
        cbn [length]. rewrite Nat2Z.inj_succ, Z.pow_succ_r by lia.
        pose proof (Z.div_mod n 10). lia.
      * apply Z.div_pos; lia.
      * assert (Z.log2 (n / 10) < Z.log2 n); [| lia].
        assert (n / 10 <= n / 2 ^ 1) as Hle
          by (apply Z.div_le_compat_l; change (2 ^ 1) with 2; lia).
        rewrite <- Z.shiftr_div_pow2 in Hle by lia.
        apply Z.log2_le_mono in Hle.
        rewrite Z.log2_shiftr in Hle by lia.
        assert (3 <= Z.log2 n) by (apply Z.log2_le_pow2; simpl; lia).
        lia.
Qed.

(** [to_string] renders its argument: reading the digits gives it back. *)
Lemma to_string_value n : 0 <= n -> decimal_value (to_string n) = n.
Proof.
  intros Hn. unfold to_string. rewrite digits_value.
  - change (Z.of_nat (length [])) with 0. change (decimal_value []) with 0. lia.
  - lia.
  - pose proof (Z.log2_nonneg n). lia.
Qed.

Lemma digits_length fuel : forall n acc k,
  0 <= n < 10 ^ Z.of_nat k -> (1 <= k)%nat ->
  (length (digits fuel n acc) <= k + length acc)%nat.
Proof.
  induction fuel as [| fuel IH]; intros n acc k Hn Hk.
  - simpl. lia.
  - cbn [digits]. destruct (Z.ltb_spec n 10) as [Hlt | Hge].
    + simpl. lia.
    + destruct k as [| [| k]]; [lia | simpl in Hn; lia |].
      specialize (IH (n / 10) (digit (n mod 10) :: acc) (S k)).
      cbn [length] in IH.
      assert (0 <= n / 10 < 10 ^ Z.of_nat (S k)); [| lia].
      split; [apply Z.div_pos; lia |].
      apply Z.div_lt_upper_bound; [lia |].
      rewrite <- Z.pow_succ_r, <- Nat2Z.inj_succ by lia. lia.
Qed.

Lemma to_string_length n : 0 <= n <= ull_max -> (length (to_string n) <= 20)%nat.
Proof.
  intros Hn. unfold to_string.
  pose proof (digits_length (S (Z.to_nat (Z.log2 n))) n [] 20) as H.
  simpl length in H. rewrite Nat.add_0_r in H. apply H; [| lia].
  rewrite ull_max_eq in Hn. change (10 ^ Z.of_nat 20) with 100000000000000000000.
  lia.
Qed.

Lemma message_size s : 0 <= s <= ull_max -> 10 <= size (message_of s) + 1 <= 30.
Proof.
  intros Hs. unfold size, message_of. rewrite length_app.
  pose proof (to_string_length s Hs). simpl length. lia.
Qed.

(** ** RingBuffer *)

Lemma slot_lt k b block_idx :
  ring_ok k b -> (slot k block_idx < length (RingBuffer.buffer b))%nat.
Proof.
  intros (Hk & _ & Hlen & _). unfold slot.
  pose proof (Z.mod_pos_bound block_idx (2 ^ k)) as H.
  assert (0 < 2 ^ k) by (apply Z.pow_pos_nonneg; lia). lia.
Qed.

(** The cast to [uint32_t] keeps the slot. *)
Lemma slot_uint32 s : slot p (to_uint32 s) = slot p s.
Proof.
  unfold slot, to_uint32. rewrite mod_mod_pow2 by (unfold p; lia). reflexivity.
Qed.

Lemma land_slot k b block_idx :
  ring_ok k b -> Z.to_nat (Z.land block_idx (RingBuffer.l b)) = slot k block_idx.
Proof.
  intros (Hk & Hl & _). rewrite Hl, land_mask by assumption. reflexivity.
Qed.

Lemma at_index_slot k b block_idx :
  ring_ok k b ->
  exists blk,
    RingBuffer.buffer b !! slot k block_idx = Some blk /\
    block_ok blk /\
    at_index (RingBuffer.buffer b) (Z.land block_idx (RingBuffer.l b)) = Done blk.
Proof.
  intros Hok. pose proof (slot_lt k b block_idx Hok) as Hlt.
  destruct Hok as (Hk & Hl & Hlen & Hall).
  destruct (lookup_lt_is_Some_2 _ _ Hlt) as [blk Hblk].
  exists blk. split; [assumption |]. split.
  - rewrite Forall_lookup in Hall. exact (Hall _ _ Hblk).
  - unfold at_index. rewrite Hl, land_mask by assumption.
    assert (0 < 2 ^ k) by (apply Z.pow_pos_nonneg; lia).
    pose proof (Z.mod_pos_bound block_idx (2 ^ k)).
    destruct (Z.ltb_spec (block_idx mod 2 ^ k) 0); [lia |].
    fold (slot k block_idx). rewrite Hblk. reflexivity.
Qed.

Lemma memcpy_done dst src n :
  0 <= n -> n <= Z.of_nat (length src) -> n <= Z.of_nat (length dst) ->
  memcpy dst src n = Done (take (Z.to_nat n) src ++ drop (Z.to_nat n) dst).
Proof.
  intros ? Hs Hd. unfold memcpy.
  apply Z.leb_le in Hs, Hd. rewrite Hs, Hd. reflexivity.
Qed.

Lemma memcpy_overrun dst src n :
  Z.of_nat (length dst) < n -> memcpy dst src n = Overrun.
Proof.
  intros Hd. unfold memcpy.
  apply Z.leb_gt in Hd. rewrite Hd, andb_false_r. reflexivity.
Qed.

Lemma memcpy_length dst src n d :
  memcpy dst src n = Done d -> length d = length dst.
Proof.
  unfold memcpy.
  destruct (Z.leb_spec n (Z.of_nat (length src)));
    destruct (Z.leb_spec n (Z.of_nat (length dst))); simpl; try discriminate.
  intros [= <-]. rewrite length_app, length_take, length_drop. lia.
Qed.

Lemma written_ok old data size :
  block_ok old -> 0 <= size <= Block.data_len ->
  size <= Z.of_nat (length data) -> block_ok (written old data size).
Proof.
  unfold block_ok, Block.data_len. intros [Hlen _] Hsize Hdata. simpl.
  rewrite length_app, length_take, length_drop. lia.
Qed.

(** [Write] stores the length and the first [size] bytes of [data] in the
    slot [block_idx & l], whatever the slot held. *)
Lemma Write_done k b block_idx data size :
  ring_ok k b -> 0 <= size <= Block.data_len ->
  size <= Z.of_nat (length data) ->
  exists old,
    RingBuffer.buffer b !! slot k block_idx = Some old /\
    RingBuffer.Write b block_idx data size
    = Done {| RingBuffer.buffer :=
                <[slot k block_idx := written old data size]>
                  (RingBuffer.buffer b);
              RingBuffer.l := RingBuffer.l b |}.
Proof.
  intros Hok Hsize Hdata.
  destruct (at_index_slot k b block_idx Hok) as (old & Hold & [Hlen _] & Hat).
  pose proof (slot_lt k b block_idx Hok) as Hlt.
  exists old. split; [assumption |].
  pose proof (land_slot k b block_idx Hok) as Hidx.
  unfold RingBuffer.Write, RingBuffer.store_size, RingBuffer.store_data.
  rewrite Hat. cbn [bind RingBuffer.buffer RingBuffer.l].
  unfold at_index at 1.
  destruct (Z.ltb_spec (Z.land block_idx (RingBuffer.l b)) 0) as [Hneg | _].
  { unfold at_index in Hat. apply Z.ltb_lt in Hneg. rewrite Hneg in Hat.
    discriminate. }
  rewrite Hidx, list_lookup_insert_eq by assumption.
  cbn [bind Block.data Block.size_].
  unfold Block.data_len in *.
  rewrite memcpy_done by lia.
  cbn [bind]. rewrite list_insert_insert_eq. reflexivity.
Qed.

(** A length beyond the payload array is not refused: the length is stored
    and the copy runs past the array. *)
Lemma Write_overrun k b block_idx data size :
  ring_ok k b -> Block.data_len < size ->
  (exists b1 old,
     RingBuffer.buffer b !! slot k block_idx = Some old /\
     RingBuffer.store_size b (Z.land block_idx (RingBuffer.l b)) size = Done b1 /\
     RingBuffer.buffer b1 !! slot k block_idx
     = Some {| Block.data := Block.data old; Block.size_ := size |}) /\
  RingBuffer.Write b block_idx data size = Overrun.
Proof.
  intros Hok Hsize.
  destruct (at_index_slot k b block_idx Hok) as (old & Hold & [Hlen _] & Hat).
  pose proof (slot_lt k b block_idx Hok) as Hlt.
  pose proof (land_slot k b block_idx Hok) as Hidx.
  unfold RingBuffer.Write, RingBuffer.store_size, RingBuffer.store_data.
  rewrite Hat. cbn [bind RingBuffer.buffer RingBuffer.l]. split.
  - eexists _, old. split; [eassumption |]. split; [reflexivity |].
    cbn [RingBuffer.buffer]. rewrite Hidx. apply list_lookup_insert_eq, Hlt.
  - unfold at_index at 1.
    destruct (Z.ltb_spec (Z.land block_idx (RingBuffer.l b)) 0) as [Hneg | _].
    { reflexivity. }
    rewrite Hidx, list_lookup_insert_eq by assumption.
    cbn [bind Block.data Block.size_].
    rewrite memcpy_overrun by lia. reflexivity.
Qed.

(** What a call of [Write] that returns has done. *)
Lemma Write_inv k b block_idx data size b1 :
  ring_ok k b -> 0 <= size ->
  RingBuffer.Write b block_idx data size = Done b1 ->
  size <= Block.data_len /\ size <= Z.of_nat (length data) /\
  exists old,
    RingBuffer.buffer b !! slot k block_idx = Some old /\
    b1 = {| RingBuffer.buffer :=
              <[slot k block_idx := written old data size]>
                (RingBuffer.buffer b);
            RingBuffer.l := RingBuffer.l b |}.
Proof.
  intros Hok Hsize HW.
  destruct (Z.le_gt_cases size Block.data_len) as [Hfit | Hbig].
  2: { destruct (Write_overrun k b block_idx data size Hok Hbig) as [_ HW'].
       congruence. }
  destruct (Z.le_gt_cases size (Z.of_nat (length data))) as [Hdata | Hdata].
  - destruct (Write_done k b block_idx data size Hok (conj Hsize Hfit) Hdata)
      as (old & Hold & HW').
    rewrite HW' in HW. injection HW as <-. eauto.
  - exfalso. revert HW.
    destruct (at_index_slot k b block_idx Hok) as (old & Hold & _ & Hat).
    pose proof (slot_lt k b block_idx Hok) as Hlt.
    pose proof (land_slot k b block_idx Hok) as Hidx.
    unfold RingBuffer.Write, RingBuffer.store_size, RingBuffer.store_data.
    rewrite Hat. cbn [bind RingBuffer.buffer RingBuffer.l].
    unfold at_index.
    destruct (Z.ltb_spec (Z.land block_idx (RingBuffer.l b)) 0);
      [cbn [bind]; discriminate |].
    rewrite Hidx, list_lookup_insert_eq by assumption.
    cbn [bind Block.data]. unfold memcpy.
    apply Z.leb_gt in Hdata. rewrite Hdata.
    cbn [andb bind]. discriminate.
Qed.

Lemma Write_ring_ok k b block_idx data size b1 :
  ring_ok k b -> 0 <= size ->
  RingBuffer.Write b block_idx data size = Done b1 -> ring_ok k b1.
Proof.
  intros Hok Hsize HW.
  destruct (Write_inv k b block_idx data size b1 Hok Hsize HW)
    as (Hfit & Hdata & old & Hold & ->).
  destruct Hok as (Hk & Hl & Hlen & Hall).
  repeat split; cbn [RingBuffer.buffer RingBuffer.l]; try assumption.
  - rewrite length_insert. assumption.
  - apply Forall_insert; [assumption |].
    rewrite Forall_lookup in Hall.
    apply written_ok; [exact (Hall _ _ Hold) | lia | assumption].
Qed.


(** [Read] returns the length of the slot and copies that many bytes. *)
Lemma Read_done k b block_idx out blk :
  ring_ok k b ->
  RingBuffer.buffer b !! slot k block_idx = Some blk ->
  Block.size_ blk <= Block.data_len ->
  Block.size_ blk <= Z.of_nat (length out) ->
  RingBuffer.Read b block_idx out
  = Done (take (Z.to_nat (Block.size_ blk)) (Block.data blk)
          ++ drop (Z.to_nat (Block.size_ blk)) out,
          Block.size_ blk).
Proof.
  intros Hok Hblk Hsize Hout.
  destruct (at_index_slot k b block_idx Hok) as (blk' & Hblk' & [Hlen Hrange] & Hat).
  rewrite Hblk in Hblk'. injection Hblk' as <-.
  unfold RingBuffer.Read. rewrite Hat. cbn [bind].
  unfold Block.data_len in *.
  rewrite memcpy_done by lia. reflexivity.
Qed.


Lemma ring_ok_new fresh power :
  0 <= power < 32 -> (forall i, block_ok (fresh i)) ->
  ring_ok power (RingBuffer.new fresh power).
Proof.
  intros Hp Hfresh.
  assert (0 < 2 ^ power < 2 ^ 32) as Hpow.
  { split; [apply Z.pow_pos_nonneg; lia | apply Z.pow_lt_mono_r; lia]. }
  assert (to_uint32 (Z.shiftl 1 power) = 2 ^ power) as Hsize.
  { rewrite Z.shiftl_1_l. apply Z.mod_small. lia. }
  unfold ring_ok, RingBuffer.new. cbn [RingBuffer.buffer RingBuffer.l].
  rewrite Hsize. repeat split.
  - lia.
  - apply Z.mod_small. lia.
  - rewrite length_fmap, length_seq. lia.
  - apply Forall_fmap, Forall_forall. intros i _. apply Hfresh.
Qed.

Lemma zeroed_ok i : block_ok (zeroed i).
Proof. split; [reflexivity | simpl; lia]. Qed.

Lemma littered_ok i : block_ok (littered i).
Proof. split; [reflexivity | simpl; lia]. Qed.

(** ** The ring buffer round trip (C8) *)



(** ** The cast to 32 bits (C10) *)

Lemma land_uint32 s k : 0 <= k <= 32 ->
  Z.land (to_uint32 s) (2 ^ k - 1) = Z.land s (2 ^ k - 1).
Proof.
  intros Hk. rewrite !land_mask by lia. unfold to_uint32.
  apply mod_mod_pow2. lia.
Qed.

(** C10. For every [s], [(uint32_t)s & (size_ - 1)] is [s mod size_]: the
    ring of [main] has the mask [size_ - 1], and [Write] and [Read] called
    with the truncated sequence do what they would do with the full one. *)
Theorem uint32_cast_keeps_slot
  (s : Z) (fresh : nat -> Block.t) (blocks : list Block.t)
  (data out : list byte) (n : Z) :
  let ring := RingBuffer.mk blocks (size_ - 1) in
  RingBuffer.l (RingBuffer.new fresh p) = size_ - 1 /\
  Z.land (to_uint32 s) (size_ - 1) = s mod size_ /\
  RingBuffer.Write ring (to_uint32 s) data n = RingBuffer.Write ring s data n /\
  RingBuffer.Read ring (to_uint32 s) out = RingBuffer.Read ring s out.
Proof.
  cbv zeta. change (size_ - 1) with (2 ^ 8 - 1). change size_ with (2 ^ 8).
  split; [reflexivity |]. split.
  - rewrite land_uint32 by lia. apply land_mask. lia.
  - unfold RingBuffer.Write, RingBuffer.Read. cbn [RingBuffer.l].
    rewrite land_uint32 by lia. split; reflexivity.
Qed.

(** ** The size of the producer's messages (C9) *)

Lemma c_str_size message : size (c_str message) = size message + 1.
Proof. unfold size, c_str. rewrite length_app. simpl. lia. Qed.

Lemma overflow_check_range st :
  0 <= sequence st <= ull_max -> 0 <= sequence (overflow_check st) <= ull_max.
Proof.
  intros H. unfold overflow_check. destruct (sequence st =? ull_max); [| exact H].
  apply to_uint64_range.
Qed.

Lemma overflow_check_buffer st : buffer (overflow_check st) = buffer st.
Proof. unfold overflow_check. destruct (sequence st =? ull_max); reflexivity. Qed.

(** What [publish] does with a message that fits the payload array. *)
Lemma publish_done message st :
  ring_ok p (buffer st) -> size message + 1 <= Block.data_len ->
  exists old,
    RingBuffer.buffer (buffer st) !! slot p (sequence st) = Some old /\
    publish message st
    = Done (set_sequence (add64 (sequence st) 1)
              (set_buffer
                 {| RingBuffer.buffer :=
                      <[slot p (sequence st) :=
                          written old (c_str message) (size message + 1)]>
                        (RingBuffer.buffer (buffer st));
                    RingBuffer.l := RingBuffer.l (buffer st) |} st)).
Proof.
  intros Hok Hfit.
  assert (0 <= size message) by (unfold size; lia).
  assert (to_uint8 (size message + 1) = size message + 1) as Hsz.
  { unfold to_uint8. apply Z.mod_small. unfold Block.data_len in Hfit.
    change (2 ^ 8) with 256. lia. }
  pose proof (slot_uint32 (sequence st)) as Hslot.
  destruct (Write_done p (buffer st) (to_uint32 (sequence st)) (c_str message)
              (size message + 1) Hok) as (old & Hold & HW).
  { lia. }
  { fold (size (c_str message)). rewrite c_str_size. lia. }
  rewrite Hslot in Hold, HW.
  exists old. split; [exact Hold |].
  unfold publish. rewrite Hsz, HW. reflexivity.
Qed.

(** C9. For every [uint64_t] value the message with its terminating NUL is
    at most 30 bytes, so the length [producer] passes to [Write] is not
    truncated by the cast to [uint8_t] and is within the 63 bytes of the
    slot: an iteration of [producer] never runs past the payload array, and
    the slot it writes holds the message and a length of at most 30. *)
Theorem producer_write_fits (st : state) :
  0 <= sequence st <= ull_max ->
  ring_ok p (buffer st) ->
  (forall s, 0 <= s <= ull_max -> size (c_str (message_of s)) <= 30) /\
  let st1 := overflow_check st in
  let message := message_of (sequence st1) in
  to_uint8 (size message + 1) = size (c_str message) /\
  size (c_str message) <= Block.data_len /\
  exists st',
    producer_iter st = Done st' /\
    ring_ok p (buffer st') /\
    (gate (sequence st) (consumer_sequences st) = true ->
     exists blk,
       RingBuffer.buffer (buffer st') !! slot p (sequence st1) = Some blk /\
       Block.size_ blk = size (c_str message) /\
       take (Z.to_nat (Block.size_ blk)) (Block.data blk) = c_str message).
Proof.
  intros Hseq Hok. split.
  { intros s Hs. rewrite c_str_size. pose proof (message_size s Hs). lia. }
  cbv zeta.
  pose proof (overflow_check_range st Hseq) as Hseq1.
  pose proof (message_size _ Hseq1) as Hsize.
  set (st1 := overflow_check st) in *.
  set (message := message_of (sequence st1)) in *.
  rewrite c_str_size. split.
  { unfold to_uint8. apply Z.mod_small. change (2 ^ 8) with 256. lia. }
  split; [unfold Block.data_len; lia |].
  unfold producer_iter.
  destruct (gate (sequence st) (consumer_sequences st)); cbn [negb].
  - fold st1. fold message.
    assert (ring_ok p (buffer st1)) as Hok1
      by (unfold st1; rewrite overflow_check_buffer; exact Hok).
    destruct (publish_done message st1 Hok1) as (old & Hold & Hpub).
    { unfold Block.data_len. lia. }
    rewrite Hpub. eexists. split; [reflexivity |].
    cbn [buffer set_sequence set_buffer RingBuffer.buffer].
    pose proof (slot_lt p _ (sequence st1) Hok1) as Hlt.
    split.
    + destruct Hok1 as (Hk & Hl & Hlen & Hall).
      repeat split; cbn [RingBuffer.buffer RingBuffer.l]; try assumption.
      * rewrite length_insert. assumption.
      * apply Forall_insert; [assumption |].
        rewrite Forall_lookup in Hall.
        apply written_ok; [exact (Hall _ _ Hold) | unfold Block.data_len; lia |].
        fold (size (c_str message)). rewrite c_str_size. lia.
    + intros _. eexists. split; [apply list_lookup_insert_eq, Hlt |].
      cbn [written Block.size_ Block.data]. split; [reflexivity |].
      assert (Z.to_nat (size message + 1) = length (c_str message)) as Hn
        by (rewrite <- c_str_size; unfold size; lia).
      rewrite Hn, firstn_all. apply take_app_length.
  - exists st. split; [reflexivity |]. split; [exact Hok |]. discriminate.
Qed.

Lemma producer_write_fits_witness :
  let st := set_sequence ull_max
              (set_consumer_sequences (replicate 4 (ull_max - 255)) (init littered)) in
  (forall s, 0 <= s <= ull_max -> size (c_str (message_of s)) <= 30) /\
  let st1 := overflow_check st in
  let message := message_of (sequence st1) in
  to_uint8 (size message + 1) = size (c_str message) /\
  size (c_str message) <= Block.data_len /\
  exists st',
    producer_iter st = Done st' /\
    ring_ok p (buffer st') /\
    (gate (sequence st) (consumer_sequences st) = true ->
     exists blk,
       RingBuffer.buffer (buffer st') !! slot p (sequence st1) = Some blk /\
       Block.size_ blk = size (c_str message) /\
       take (Z.to_nat (Block.size_ blk)) (Block.data blk) = c_str message).
Proof.
  apply (producer_write_fits
           (set_sequence ull_max
              (set_consumer_sequences (replicate 4 (ull_max - 255)) (init littered)))).
  - vm_compute. split; discriminate.
  - apply ring_ok_new; [unfold p; lia | apply littered_ok].
Defined.

(** ** Messages longer than a slot (C6) *)

Lemma publish_overrun message st :
  ring_ok p (buffer st) ->
  Block.data_len < to_uint8 (size message + 1) ->
  (exists b1 old,
     RingBuffer.buffer (buffer st) !! slot p (sequence st) = Some old /\
     RingBuffer.store_size (buffer st)
       (Z.land (to_uint32 (sequence st)) (RingBuffer.l (buffer st)))
       (to_uint8 (size message + 1)) = Done b1 /\
     RingBuffer.buffer b1 !! slot p (sequence st)
     = Some {| Block.data := Block.data old;
               Block.size_ := to_uint8 (size message + 1) |}) /\
  publish message st = Overrun.
Proof.
  intros Hok Hbig.
  pose proof (slot_uint32 (sequence st)) as Hslot.
  destruct (Write_overrun p (buffer st) (to_uint32 (sequence st))
              (c_str message) _ Hok Hbig) as [Hstored HW].
  rewrite Hslot in Hstored. split; [exact Hstored |].
  unfold publish. rewrite HW. reflexivity.
Qed.

(** The claim of the specification fails on the code: a message of 100
    characters is not refused. [Write] stores its length in the slot and the
    copy then runs past the 63 bytes of the slot. A message of 300 characters
    is not refused either: its length is cut to 8 bits, and 45 of its bytes
    are written. *)
Lemma oversized_message_not_rejected :
  let st := init zeroed in
  let long := replicate 100 "x"%byte in
  let longer := replicate 300 "x"%byte in
  (Block.data_len < size long /\
   publish long st = Overrun /\
   exists b1,
     RingBuffer.store_size (buffer st) 0 101 = Done b1 /\
     Block.size_ <$> RingBuffer.buffer b1 !! 0%nat = Some 101) /\
  (Block.data_len < size longer /\
   exists st',
     publish longer st = Done st' /\
     RingBuffer.buffer (buffer st') !! 0%nat
     = Some {| Block.data := replicate 45 "x"%byte ++ replicate 18 x00;
               Block.size_ := 45 |}).
Proof.
  cbv zeta. split.
  - split; [vm_compute; reflexivity |]. split; [vm_compute; reflexivity |].
    eexists. split; vm_compute; reflexivity.
  - split; [vm_compute; reflexivity |].
    eexists. split; vm_compute; reflexivity.
Qed.

(** C6, as the code has it. [publish] has no check of the length and no
    [InvalidPayloadSize]: for every message it calls [Write] with the length
    cut to 8 bits. When that length is above 63 the length is stored in the
    slot and the copy runs past the payload array; otherwise that many bytes
    are written. The messages [producer] builds are at most 30 bytes, which
    is the only reason no oversized payload is written. *)
Theorem publish_checks_no_size (message : list byte) (st : state) :
  ring_ok p (buffer st) ->
  let n := to_uint8 (size message + 1) in
  (Block.data_len < n ->
   publish message st = Overrun /\
   exists b1 old,
     RingBuffer.buffer (buffer st) !! slot p (sequence st) = Some old /\
     RingBuffer.store_size (buffer st)
       (Z.land (to_uint32 (sequence st)) (RingBuffer.l (buffer st))) n = Done b1 /\
     RingBuffer.buffer b1 !! slot p (sequence st)
     = Some {| Block.data := Block.data old; Block.size_ := n |}) /\
  (n <= Block.data_len ->
   exists old st',
     RingBuffer.buffer (buffer st) !! slot p (sequence st) = Some old /\
     publish message st = Done st' /\
     RingBuffer.buffer (buffer st') !! slot p (sequence st)
     = Some (written old (c_str message) n)) /\
  (forall s, 0 <= s <= ull_max ->
     to_uint8 (size (message_of s) + 1) = size (message_of s) + 1 /\
     size (message_of s) + 1 <= 30).
Proof.
  intros Hok n. split; [| split].
  - intros Hbig. destruct (publish_overrun message st Hok Hbig) as [Hstored Hpub].
    split; assumption.
  - intros Hfit.
    assert (0 <= n < 2 ^ 8) as Hn by (apply Z.mod_pos_bound; reflexivity).
    assert (n <= size (c_str message)) as Hsrc.
    { rewrite c_str_size. unfold n, to_uint8.
      apply Z.mod_le; [unfold size; lia | reflexivity]. }
    pose proof (slot_uint32 (sequence st)) as Hslot.
    destruct (Write_done p (buffer st) (to_uint32 (sequence st)) (c_str message)
                n Hok) as (old & Hold & HW); [lia | exact Hsrc |].
    rewrite Hslot in Hold, HW.
    eexists old, _. split; [exact Hold |].
    unfold publish. fold n. rewrite HW. split; [reflexivity |].
    cbn [buffer set_sequence set_buffer RingBuffer.buffer].
    apply list_lookup_insert_eq, (slot_lt p _ _ Hok).
  - intros s Hs. pose proof (message_size s Hs) as Hsize.
    split; [| lia]. unfold to_uint8. apply Z.mod_small.
    change (2 ^ 8) with 256. lia.
Qed.

Lemma publish_checks_no_size_witness :
  let st := init littered in
  let message := replicate 100 "x"%byte in
  let n := to_uint8 (size message + 1) in
  (Block.data_len < n ->
   publish message st = Overrun /\
   exists b1 old,
     RingBuffer.buffer (buffer st) !! slot p (sequence st) = Some old /\
     RingBuffer.store_size (buffer st)
       (Z.land (to_uint32 (sequence st)) (RingBuffer.l (buffer st))) n = Done b1 /\
     RingBuffer.buffer b1 !! slot p (sequence st)
     = Some {| Block.data := Block.data old; Block.size_ := n |}) /\
  (n <= Block.data_len ->
   exists old st',
     RingBuffer.buffer (buffer st) !! slot p (sequence st) = Some old /\
     publish message st = Done st' /\
     RingBuffer.buffer (buffer st') !! slot p (sequence st)
     = Some (written old (c_str message) n)) /\
  (forall s, 0 <= s <= ull_max ->
     to_uint8 (size (message_of s) + 1) = size (message_of s) + 1 /\
     size (message_of s) + 1 <= 30).
Proof.
  apply (publish_checks_no_size (replicate 100 "x"%byte) (init littered)).
  apply ring_ok_new; [unfold p; lia | apply littered_ok].
Defined.

(** ** The producer's admission (C2) *)

Lemma gate_spec s cs :
  gate s cs = true <-> forall i c, cs !! i = Some c -> sub64 s c < size_.
Proof.
  induction cs as [| c0 cs IH]; cbn [gate].
  - split; [intros _ i c Hi; discriminate | reflexivity].
  - destruct (Z.leb_spec size_ (sub64 s c0)) as [Hfar | Hnear].
    + split; [discriminate |]. intros H.
      specialize (H 0%nat c0 eq_refl). lia.
    + rewrite IH. split.
      * intros H [| i] c Hi; [injection Hi as <-; exact Hnear | exact (H i c Hi)].
      * intros H i c Hi. exact (H (S i) c Hi).
Qed.

(** C2. [cont] is true exactly when every consumer's distance
    [sequence - consumer_sequences[i]], computed on [uint64_t], is below
    [size_]; with four consumers these are four comparisons. When it is
    false the iteration changes nothing. When it is true the iteration
    writes the message of the (possibly rebased) sequence into its slot and
    adds one to the sequence. Between counters in order the [uint64_t]
    distance is the difference of the integers. *)
Theorem producer_admission (st : state) :
  0 <= sequence st <= ull_max ->
  ring_ok p (buffer st) ->
  (gate (sequence st) (consumer_sequences st) = true <-> producer_admitted st) /\
  (forall c0 c1 c2 c3, consumer_sequences st = [c0; c1; c2; c3] ->
     gate (sequence st) (consumer_sequences st)
     = (sub64 (sequence st) c0 <? size_) && (sub64 (sequence st) c1 <? size_)
       && (sub64 (sequence st) c2 <? size_) && (sub64 (sequence st) c3 <? size_)) /\
  (forall c, 0 <= c <= sequence st -> sub64 (sequence st) c = sequence st - c) /\
  (~ producer_admitted st -> producer_iter st = Done st) /\
  (producer_admitted st ->
   let st1 := overflow_check st in
   exists old,
     RingBuffer.buffer (buffer st1) !! slot p (sequence st1) = Some old /\
     producer_iter st
     = Done (set_sequence (add64 (sequence st1) 1)
               (set_buffer
                  {| RingBuffer.buffer :=
                       <[slot p (sequence st1) :=
                           written old (c_str (message_of (sequence st1)))
                             (size (message_of (sequence st1)) + 1)]>
                         (RingBuffer.buffer (buffer st1));
                     RingBuffer.l := RingBuffer.l (buffer st1) |} st1))).
Proof.
  intros Hseq Hok. split; [apply gate_spec |]. split; [| split; [| split]].
  - intros c0 c1 c2 c3 ->. cbn [gate].
    repeat match goal with
           | |- context [size_ <=? ?d] =>
               rewrite (Z.leb_antisym d size_), (Z.ltb_antisym size_ d);
               destruct (size_ <=? d)
           end; reflexivity.
  - intros c Hc. apply sub64_exact; lia.
  - intros Hno. unfold producer_iter.
    destruct (gate (sequence st) (consumer_sequences st)) eqn:Hgate;
      [| reflexivity].
    destruct (Hno (proj1 (gate_spec _ _) Hgate)).
  - intros Hadm. cbv zeta. pose proof (proj2 (gate_spec _ _) Hadm) as Hgate.
    unfold producer_iter. rewrite Hgate. cbn [negb].
    apply publish_done.
    + rewrite overflow_check_buffer. exact Hok.
    + pose proof (message_size _ (overflow_check_range st Hseq)).
      unfold Block.data_len. lia.
Qed.

Lemma producer_admission_witness :
  let st := set_sequence 300
              (set_consumer_sequences [45; 100; 200; 300] (init littered)) in
  (0 <= sequence st <= ull_max) /\
  ring_ok p (buffer st) /\
  (gate (sequence st) (consumer_sequences st) = true <-> producer_admitted st) /\
  (forall c, 0 <= c <= sequence st -> sub64 (sequence st) c = sequence st - c).
Proof.
  cbv zeta.
  assert (ring_ok p (RingBuffer.new littered p)) as Hok
    by (apply ring_ok_new; [unfold p; lia | apply littered_ok]).
  split; [vm_compute; split; discriminate |]. split; [exact Hok |].
  destruct (producer_admission
              (set_sequence 300
                 (set_consumer_sequences [45; 100; 200; 300] (init littered))))
    as (Hgate & _ & Hdiff & _).
  - vm_compute. split; discriminate.
  - exact Hok.
  - split; [exact Hgate | exact Hdiff].
Defined.

(** ** The consumers' admission (C3) *)

Lemma at_index_Done {A : Type} (a : list A) (i : Z) (x : A) :
  at_index a i = Done x <-> 0 <= i /\ a !! Z.to_nat i = Some x.
Proof.
  unfold at_index. destruct (Z.ltb_spec i 0) as [Hneg | Hpos].
  - split; [discriminate | lia].
  - destruct (a !! Z.to_nat i) as [y |].
    + split; [intros [= ->]; auto | intros [_ [= ->]]; reflexivity].
    + split; [discriminate | intros [_ [=]]].
Qed.

(** C3. Consumer [consumer_id] is admitted exactly when its sequence [c] is
    below the producer's and it either has no upstream consumer
    ([next_consumer_id] is -1) or [c] is below the upstream consumer's
    sequence. When it is not admitted the iteration reads nothing and leaves
    the state as it is. When it is admitted the iteration reads the slot of
    [c] and adds one to the consumer's sequence. *)
Theorem consumer_admission
  (st : state) (consumer_id next_consumer_id : Z) (c : Z) :
  at_index (consumer_sequences st) consumer_id = Done c ->
  (next_consumer_id = -1 \/
   exists n, at_index (consumer_sequences st) next_consumer_id = Done n) ->
  let admitted :=
    c < sequence st /\
    (next_consumer_id = -1 \/
     exists n, at_index (consumer_sequences st) next_consumer_id = Done n /\ c < n) in
  (consumer_admitted consumer_id next_consumer_id st = Done true <-> admitted) /\
  (~ admitted -> consumer_iter consumer_id next_consumer_id st = Done (st, None)) /\
  (admitted ->
   consumer_iter consumer_id next_consumer_id st
   = let* r := RingBuffer.Read (buffer st) (to_uint32 c) local_data in
     Done (set_consumer_sequences
             (<[Z.to_nat consumer_id := add64 c 1]> (consumer_sequences st)) st,
           Some r)) /\
  (admitted -> ring_ok p (buffer st) ->
   forall blk,
     RingBuffer.buffer (buffer st) !! slot p c = Some blk ->
     Block.size_ blk <= Block.data_len ->
     exists d,
       take (Z.to_nat (Block.size_ blk)) d
       = take (Z.to_nat (Block.size_ blk)) (Block.data blk) /\
       consumer_iter consumer_id next_consumer_id st
       = Done (set_consumer_sequences
                 (<[Z.to_nat consumer_id := add64 c 1]> (consumer_sequences st)) st,
               Some (d, Block.size_ blk))).
Proof.
  intros Hc Hnext admitted.
  assert (consumer_admitted consumer_id next_consumer_id st = Done true
          <-> admitted) as Hadm.
  { unfold consumer_admitted, admitted. rewrite Hc. cbn [bind].
    destruct (Z.ltb_spec c (sequence st)) as [Hlt | Hge].
    2: { split; [discriminate | lia]. }
    destruct (Z.eqb_spec next_consumer_id (-1)) as [-> | Hne].
    { split; auto. }
    destruct Hnext as [-> | [n Hn]]; [contradiction |].
    rewrite Hn. cbn [bind]. destruct (Z.ltb_spec c n) as [Hcn | Hcn].
    - split; [| reflexivity]. intros _. split; [assumption |].
      right. exists n. auto.
    - split; [discriminate |]. intros [_ [-> | (n' & Hn' & Hlt')]];
        [contradiction |].
      injection Hn' as <-. lia. }
  assert (exists ok, consumer_admitted consumer_id next_consumer_id st = Done ok)
    as [ok Hok].
  { unfold consumer_admitted. rewrite Hc. cbn [bind].
    destruct (c <? sequence st); [| eauto].
    destruct (next_consumer_id =? -1) eqn:Hm; [eauto |].
    destruct Hnext as [-> | [n Hn]]; [discriminate |].
    rewrite Hn. cbn [bind]. eauto. }
  assert (admitted ->
          consumer_iter consumer_id next_consumer_id st
          = let* r := RingBuffer.Read (buffer st) (to_uint32 c) local_data in
            Done (set_consumer_sequences
                    (<[Z.to_nat consumer_id := add64 c 1]> (consumer_sequences st)) st,
                  Some r)) as Hiter.
  { intros Hyes. apply Hadm in Hyes. unfold consumer_iter.
    rewrite Hyes. cbn [bind]. rewrite Hc. reflexivity. }
  split; [exact Hadm |]. split; [| split; [exact Hiter |]].
  - intros Hno. unfold consumer_iter. rewrite Hok. cbn [bind].
    destruct ok; [| reflexivity]. destruct (Hno (proj1 Hadm Hok)).
  - intros Hyes Hring blk Hblk Hsize. rewrite (Hiter Hyes).
    pose proof (slot_uint32 c) as Hslot.
    rewrite <- Hslot in Hblk.
    rewrite (Read_done p (buffer st) (to_uint32 c) local_data blk Hring Hblk Hsize).
    2: { unfold Block.data_len in Hsize. simpl length. lia. }
    cbn [bind]. eexists. split; [| reflexivity].
    apply take_app_length'.
    destruct (at_index_slot p (buffer st) (to_uint32 c) Hring)
      as (blk' & Hblk' & [Hlen Hrange] & _).
    rewrite Hblk in Hblk'. injection Hblk' as <-.
    rewrite length_take. unfold Block.data_len in *. lia.
Qed.

Lemma consumer_admission_witness :
  let st := set_sequence 3
              (set_consumer_sequences [1; 2; 2; 3] (init littered)) in
  at_index (consumer_sequences st) 0 = Done 1 /\
  at_index (consumer_sequences st) 1 = Done 2 /\
  consumer_admitted 0 1 st = Done true /\
  consumer_admitted 1 2 st = Done false /\
  consumer_iter 1 2 st = Done (st, None).
Proof.
  cbv zeta.
  split; [reflexivity |]. split; [reflexivity |]. split; [| split].
  - apply (consumer_admission
             (set_sequence 3 (set_consumer_sequences [1; 2; 2; 3] (init littered)))
             0 1 1 eq_refl).
    + right. exists 2. reflexivity.
    + split; [reflexivity |]. right. exists 2. split; [reflexivity | reflexivity].
  - reflexivity.
  - apply (consumer_admission
             (set_sequence 3 (set_consumer_sequences [1; 2; 2; 3] (init littered)))
             1 2 2 eq_refl).
    + right. exists 2. reflexivity.
    + intros [_ [H | (n & Hn & Hlt)]]; [discriminate |].
      injection Hn as <-. lia.
Defined.

(** ** The overflow rebase (C5) *)

Lemma fold_min_le rest : forall c, fold_left Z.min rest c <= c.
Proof.
  induction rest as [| x rest IH]; intros c; cbn [fold_left]; [lia |].
  specialize (IH (Z.min c x)). lia.
Qed.

Lemma fold_min_le_elem rest : forall c i x,
  rest !! i = Some x -> fold_left Z.min rest c <= x.
Proof.
  induction rest as [| y rest IH]; intros c i x Hi; [discriminate |].
  cbn [fold_left]. destruct i as [| i].
  - injection Hi as ->. pose proof (fold_min_le rest (Z.min c x)). lia.
  - exact (IH _ i x Hi).
Qed.

Lemma min_consumer_le cs i c : cs !! i = Some c -> min_consumer cs <= c.
Proof.
  destruct cs as [| c0 rest]; [discriminate |]. cbn [min_consumer].
  destruct i as [| i]; intros Hi.
  - injection Hi as ->. apply fold_min_le.
  - exact (fold_min_le_elem rest c0 i c Hi).
Qed.



(** C5. An iteration that does not pass the gate changes nothing; in one
    that does, the rebase runs exactly when the producer's sequence is
    [ull_max]. It computes
    [c = ull_max / size_ - 2] and takes [c * size_] from every consumer's
    sequence and from the producer's. When the producer is at most one
    buffer ahead of the slowest consumer the subtractions do not wrap: every
    counter keeps its remainder modulo [size_], and the difference of any
    two counters is what it was. *)
Theorem overflow_rebase (st : state) :
  epochs = ull_max / size_ - 2 /\
  rebase_amount = epochs * size_ /\
  (gate (sequence st) (consumer_sequences st) = false ->
   producer_iter st = Done st) /\
  (gate (sequence st) (consumer_sequences st) = true ->
   producer_iter st
   = publish (message_of (sequence (overflow_check st))) (overflow_check st)) /\
  (sequence st <> ull_max -> overflow_check st = st) /\
  (sequence st = ull_max ->
   overflow_check st = rebase st /\
   sequence (rebase st) = sub64 (sequence st) rebase_amount /\
   consumer_sequences (rebase st)
   = (fun c => sub64 c rebase_amount) <$> consumer_sequences st /\
   buffer (rebase st) = buffer st /\
   sequence (rebase st) <> sequence st) /\
  (sequence st = ull_max ->
   safety st ->
   Forall (fun c => 0 <= c <= ull_max) (consumer_sequences st) ->
   sequence (rebase st) = sequence st - rebase_amount /\
   sequence (rebase st) mod size_ = sequence st mod size_ /\
   (forall i c, consumer_sequences st !! i = Some c ->
      consumer_sequences (rebase st) !! i = Some (c - rebase_amount) /\
      (c - rebase_amount) mod size_ = c mod size_) /\
   (forall i c c', consumer_sequences st !! i = Some c ->
      consumer_sequences (rebase st) !! i = Some c' ->
      sequence (rebase st) - c' = sequence st - c) /\
   (forall i j ci cj ci' cj',
      consumer_sequences st !! i = Some ci ->
      consumer_sequences st !! j = Some cj ->
      consumer_sequences (rebase st) !! i = Some ci' ->
      consumer_sequences (rebase st) !! j = Some cj' ->
      ci' - cj' = ci - cj)).
Proof.
  split; [reflexivity |]. split; [reflexivity |].
  split; [| split; [| split; [| split]]].
  - intros Hgate. unfold producer_iter. rewrite Hgate. reflexivity.
  - intros Hgate. unfold producer_iter. rewrite Hgate. reflexivity.
  - intros Hne. unfold overflow_check.
    destruct (Z.eqb_spec (sequence st) ull_max); [contradiction | reflexivity].
  - intros Hmax. unfold overflow_check.
    rewrite (proj2 (Z.eqb_eq _ _) Hmax).
    split; [reflexivity |]. split; [reflexivity |]. split; [reflexivity |].
    split; [reflexivity |].
    cbn [rebase sequence set_sequence set_consumer_sequences].
    rewrite Hmax. intros H. vm_compute in H. discriminate H.
  - intros Hmax Hsafe Hrange.
    assert (forall i c, consumer_sequences st !! i = Some c ->
              sub64 c rebase_amount = c - rebase_amount /\
              (c - rebase_amount) mod size_ = c mod size_) as Hsub.
    { intros i c Hi.
      pose proof (min_consumer_le _ i c Hi) as Hmin.
      rewrite Forall_lookup in Hrange. pose proof (Hrange i c Hi) as Hc.
      unfold safety in Hsafe. rewrite Hmax in Hsafe.
      rewrite rebase_amount_eq, size__eq, ull_max_eq in *.
      change (2 ^ 64 - 768) with (18446744073709550848) in *.
      split.
      - unfold sub64. apply to_uint64_small. rewrite ull_max_eq. lia.
      - replace (c - 18446744073709550848)
          with (c + (- 72057594037927933) * 256) by lia.
        apply Z.mod_add. lia. }
    assert (forall i c, consumer_sequences st !! i = Some c ->
              consumer_sequences (rebase st) !! i = Some (c - rebase_amount))
      as Hnew.
    { intros i c Hi.
      cbn [rebase consumer_sequences set_sequence set_consumer_sequences].
      rewrite list_lookup_fmap, Hi. cbn [fmap option_fmap option_map].
      f_equal. exact (proj1 (Hsub i c Hi)). }
    assert (sequence (rebase st) = sequence st - rebase_amount) as Hseq.
    { cbn [rebase sequence set_sequence set_consumer_sequences].
      rewrite Hmax. reflexivity. }
    split; [exact Hseq |]. split; [rewrite Hseq, Hmax; reflexivity |].
    split; [| split].
    + intros i c Hi. split; [exact (Hnew i c Hi) | exact (proj2 (Hsub i c Hi))].
    + intros i c c' Hi Hi'. rewrite (Hnew i c Hi) in Hi'. injection Hi' as <-.
      rewrite Hseq. lia.
    + intros i j ci cj ci' cj' Hi Hj Hi' Hj'.
      rewrite (Hnew i ci Hi) in Hi'. rewrite (Hnew j cj Hj) in Hj'.
      injection Hi' as <-. injection Hj' as <-. lia.
Qed.

Lemma overflow_rebase_witness :
  let st := set_sequence ull_max
              (set_consumer_sequences
                 [ull_max - 256; ull_max - 100; ull_max - 3; ull_max]
                 (init littered)) in
  sequence st = ull_max /\
  safety st /\
  sequence (rebase st) = 767 /\
  consumer_sequences (rebase st) = [511; 667; 764; 767] /\
  sequence (rebase st) mod size_ = sequence st mod size_.
Proof.
  intros st.
  assert (safety st) as Hsafe by (vm_compute; discriminate).
  assert (Forall (fun c => 0 <= c <= ull_max) (consumer_sequences st)) as Hrange
    by (repeat constructor; vm_compute; discriminate).
  destruct (overflow_rebase st) as (_ & _ & _ & _ & _ & _ & Hkeeps).
  destruct (Hkeeps eq_refl Hsafe Hrange) as (_ & Hmod & _).
  split; [reflexivity |]. split; [exact Hsafe |].
  split; [reflexivity |]. split; [reflexivity | exact Hmod].
Defined.

(** ** The invariant of the system *)

Ltac fields :=
  cbn [sequence consumer_sequences buffer producer_running consumer_running
       producer_thread consumer_threads main_at
       set_sequence set_consumer_sequences set_buffer set_producer_running
       set_consumer_running set_producer_thread set_consumer_threads
       set_main_at] in *.

Lemma counters_ok_same st st' :
  sequence st' = sequence st ->
  consumer_sequences st' = consumer_sequences st ->
  counters_ok st -> counters_ok st'.
Proof. unfold counters_ok. intros -> ->. exact id. Qed.

Lemma slots_ok_same st st' :
  sequence st' = sequence st -> buffer st' = buffer st ->
  slots_ok st -> slots_ok st'.
Proof. unfold slots_ok. intros -> ->. exact id. Qed.

Lemma Inv_init fresh : (forall i, block_ok (fresh i)) -> Inv (init fresh).
Proof.
  intros Hfresh. split.
  - unfold counters_ok, init. fields.
    split; [reflexivity |]. split; [rewrite ull_max_eq; lia |]. split.
    + intros i c Hi. apply lookup_replicate in Hi as [-> _].
      rewrite size__eq. lia.
    + intros i c c' Hi Hi'.
      apply lookup_replicate in Hi as [-> _].
      apply lookup_replicate in Hi' as [-> _]. lia.
  - split.
    + apply ring_ok_new; [unfold p; lia | exact Hfresh].
    + unfold init. fields. rewrite size__eq. intros j blk _ H. lia.
  - unfold control_ok, init. fields. cbn [flag_up joined].
    split; [reflexivity |]. split; [reflexivity |].
    split; [discriminate |]. split; [discriminate |].
    intros i Hi. apply lookup_replicate in Hi as [[=] _].
Qed.

(** While the producer runs, no consumer has returned. *)
Lemma none_finished st i :
  control_ok st -> producer_thread st <> Finished ->
  consumer_threads st !! i <> Some Finished.
Proof.
  intros (_ & Hup & Hdown & Hjoined & Hfin) Hrun Hi.
  destruct (Hfin i Hi) as [Hflag _].
  destruct (flag_up (main_at st)) eqn:Hpc.
  - rewrite (Hup eq_refl) in Hflag. discriminate.
  - apply Hrun, Hjoined, Hdown. reflexivity.
Qed.

(** While the producer runs, [control_ok] does not depend on the counters. *)
Lemma control_ok_running st st' :
  control_ok st -> producer_thread st <> Finished ->
  consumer_threads st' = consumer_threads st ->
  consumer_running st' = consumer_running st ->
  producer_thread st' = producer_thread st ->
  main_at st' = main_at st ->
  control_ok st'.
Proof.
  intros Hctl Hrun Ht Hf Hp Hm.
  pose proof (fun i => none_finished st i Hctl Hrun) as Hnone.
  destruct Hctl as (Htl & Hup & Hdown & Hjoined & Hfin).
  unfold control_ok. rewrite Ht, Hf, Hp, Hm.
  split; [exact Htl |]. split; [exact Hup |]. split; [exact Hdown |].
  split; [exact Hjoined |]. intros i Hi. destruct (Hnone i Hi).
Qed.

(** [main] moves on with the flags and the threads consistent. *)
Lemma main_control st : control_ok st -> control_ok (main st).
Proof.
  intros (Hlen & Hup & Hdown & Hjoined & Hfin).
  unfold main, control_ok.
  destruct (main_at st) as [| i | | | | i |] eqn:Hpc; cbn [flag_up joined] in *.
  - fields. cbn [flag_up joined].
    split; [exact Hlen |]. split; [auto |]. split; [discriminate |].
    split; [discriminate | exact Hfin].
  - destruct (i <? numConsumers); fields; cbn [flag_up joined].
    + rewrite length_insert.
      split; [exact Hlen |]. split; [auto |]. split; [discriminate |].
      split; [discriminate |]. intros j Hj.
      apply list_lookup_insert_Some in Hj as [(_ & [=] & _) | [_ Hj]].
      exact (Hfin j Hj).
    + split; [exact Hlen |]. split; [auto |]. split; [discriminate |].
      split; [discriminate | exact Hfin].
  - fields. cbn [flag_up joined].
    split; [exact Hlen |]. split; [auto |]. split; [discriminate |].
    split; [discriminate | exact Hfin].
  - destruct (producer_thread st) eqn:Hprod; fields; try rewrite Hpc;
      cbn [flag_up joined].
    + split; [exact Hlen |]. split; [auto |]. split; [discriminate |].
      split; [discriminate | exact Hfin].
    + split; [exact Hlen |]. split; [auto |]. split; [discriminate |].
      split; [discriminate | exact Hfin].
    + split; [exact Hlen |]. split; [auto |]. split; [discriminate |].
      split; [intros _; exact Hprod | exact Hfin].
  - fields. cbn [flag_up joined].
    split; [exact Hlen |]. split; [discriminate |]. split; [reflexivity |].
    split; [auto |]. intros j Hj. split; [reflexivity | exact (proj2 (Hfin j Hj))].
  - assert (forall pc, flag_up pc = false -> joined pc = true ->
              length (consumer_threads st) = Z.to_nat numConsumers /\
              (flag_up pc = true -> consumer_running st = true) /\
              (flag_up pc = false -> joined pc = true) /\
              (joined pc = true -> producer_thread st = Finished) /\
              (forall j, consumer_threads st !! j = Some Finished ->
                 consumer_running st = false /\
                 consumer_sequences st !! j = Some (sequence st))) as Hstay.
    { intros pc Hf Hj. rewrite Hf, Hj.
      split; [exact Hlen |]. split; [discriminate |]. split; [reflexivity |].
      split; [auto | exact Hfin]. }
    destruct (i <? numConsumers).
    + destruct (consumer_threads st !! Z.to_nat i) as [[| |] |]; fields;
        try rewrite Hpc; apply Hstay; reflexivity.
    + fields. apply Hstay; reflexivity.
  - rewrite Hpc. cbn [flag_up joined].
    split; [exact Hlen |]. split; [discriminate |]. split; [reflexivity |].
    split; [auto | exact Hfin].
Qed.

Lemma main_same st :
  sequence (main st) = sequence st /\
  consumer_sequences (main st) = consumer_sequences st /\
  buffer (main st) = buffer st.
Proof.
  unfold main. destruct (main_at st) as [| i | | | | i |]; try (repeat split; fail).
  - destruct (i <? numConsumers); repeat split.
  - destruct (producer_thread st); repeat split.
  - destruct (i <? numConsumers); [| repeat split].
    destruct (consumer_threads st !! Z.to_nat i) as [[| |] |]; repeat split.
Qed.

Lemma main_Inv st : Inv st -> Inv (main st).
Proof.
  intros [Hcnt Hslots Hctl]. destruct (main_same st) as (Hs & Hc & Hb). split.
  - exact (counters_ok_same st _ Hs Hc Hcnt).
  - exact (slots_ok_same st _ Hs Hb Hslots).
  - exact (main_control st Hctl).
Qed.

(** *** producer *)

Lemma admitted_near st :
  counters_ok st -> gate (sequence st) (consumer_sequences st) = true ->
  forall i c, consumer_sequences st !! i = Some c -> sequence st - c < size_.
Proof.
  intros (_ & Hseq & Hcs & _) Hgate i c Hi.
  pose proof (proj1 (gate_spec _ _) Hgate i c Hi) as Hnear.
  destruct (Hcs i c Hi) as [Hc _].
  rewrite sub64_exact in Hnear by lia. exact Hnear.
Qed.

Lemma rebase_exact c :
  ull_max - size_ < c <= ull_max -> sub64 c rebase_amount = c - 18446744073709550848.
Proof.
  rewrite ull_max_eq, size__eq. intros Hc. unfold sub64.
  rewrite rebase_amount_eq. change (2 ^ 64 - 768) with 18446744073709550848.
  apply to_uint64_small. rewrite ull_max_eq. lia.
Qed.

Lemma overflow_check_ready st :
  Inv st -> producer_thread st <> Finished ->
  gate (sequence st) (consumer_sequences st) = true ->
  ready (overflow_check st).
Proof.
  intros [Hcnt Hslots Hctl] Hrun Hgate.
  pose proof (admitted_near st Hcnt Hgate) as Hnear.
  destruct Hcnt as (Hlen & Hseq & Hcs & Hchain).
  unfold overflow_check.
  destruct (Z.eqb_spec (sequence st) ull_max) as [Hmax | Hne].
  - assert (forall i c1, consumer_sequences (rebase st) !! i = Some c1 ->
              exists c, consumer_sequences st !! i = Some c /\
                        c1 = c - 18446744073709550848 /\
                        ull_max - size_ < c <= ull_max) as Hold.
    { intros i c1 Hi. unfold rebase in Hi. fields.
      rewrite list_lookup_fmap in Hi.
      destruct (consumer_sequences st !! i) as [c |] eqn:Hc; [| discriminate].
      injection Hi as <-. exists c. split; [reflexivity |].
      pose proof (Hnear i c Hc). destruct (Hcs i c Hc) as [Hrange _].
      assert (ull_max - size_ < c <= ull_max) as Hwin by lia.
      split; [apply rebase_exact, Hwin | exact Hwin]. }
    assert (sequence (rebase st) = 767) as Hseq1.
    { unfold rebase. fields. rewrite Hmax. reflexivity. }
    unfold ready. rewrite Hseq1.
    split; [unfold rebase; fields; rewrite length_fmap; exact Hlen |].
    split; [rewrite ull_max_eq; lia |]. split; [| split; [| split; [| split]]].
    + intros i c1 Hi. destruct (Hold i c1 Hi) as (c & _ & -> & Hwin).
      rewrite ull_max_eq, size__eq in *. lia.
    + intros i c1 c1' Hi Hi'.
      destruct (Hold i c1 Hi) as (c & Hc & -> & _).
      destruct (Hold (S i) c1' Hi') as (c' & Hc' & -> & _).
      pose proof (Hchain i c c' Hc Hc'). lia.
    + destruct Hslots as [Hring Hfull]. split; [exact Hring |].
      intros j blk Hj _. apply (Hfull j blk Hj). right.
      rewrite Hmax, ull_max_eq, size__eq. lia.
    + apply (control_ok_running st); auto.
    + exact Hrun.
  - unfold ready.
    split; [exact Hlen |]. split; [lia |]. split; [| split; [| split; [| split]]].
    + intros i c Hi. pose proof (Hnear i c Hi). destruct (Hcs i c Hi). lia.
    + exact Hchain.
    + exact Hslots.
    + exact Hctl.
    + exact Hrun.
Qed.

Lemma publish_Inv st :
  ready st ->
  exists st', publish (message_of (sequence st)) st = Done st' /\ Inv st'.
Proof.
  intros (Hlen & Hseq & Hcs & Hchain & [Hring Hfull] & Hctl & Hrun).
  pose proof (message_size (sequence st)) as Hsize.
  specialize (Hsize ltac:(lia)).
  destruct (publish_done (message_of (sequence st)) st Hring)
    as (old & Hold & Hpub); [unfold Block.data_len; lia |].
  rewrite Hpub. eexists. split; [reflexivity |].
  assert (add64 (sequence st) 1 = sequence st + 1) as Hnext
    by (apply add64_exact; lia).
  pose proof (slot_lt p _ (sequence st) Hring) as Hlt.
  split.
  - unfold counters_ok. fields. rewrite Hnext.
    split; [exact Hlen |]. split; [lia |]. split; [| exact Hchain].
    intros i c Hi. specialize (Hcs i c Hi). lia.
  - unfold slots_ok. fields. rewrite Hnext.
    cbn [RingBuffer.buffer RingBuffer.l]. split.
    + destruct Hring as (Hk & Hl & Hblocks & Hall).
      split; [exact Hk |]. split; [exact Hl |].
      cbn [RingBuffer.buffer RingBuffer.l].
      split; [rewrite length_insert; exact Hblocks |].
      apply Forall_insert; [exact Hall |].
      rewrite Forall_lookup in Hall.
      apply written_ok; [exact (Hall _ _ Hold) | unfold Block.data_len; lia |].
      fold (size (c_str (message_of (sequence st)))). rewrite c_str_size. lia.
    + intros j blk Hj Hwritten.
      destruct (decide (j = slot p (sequence st))) as [-> | Hother].
      * rewrite list_lookup_insert_eq in Hj by exact Hlt.
        injection Hj as <-. cbn [written Block.size_]. lia.
      * rewrite list_lookup_insert_ne in Hj by congruence.
        apply (Hfull j blk Hj).
        pose proof (lookup_lt_Some _ _ _ Hj) as Hjlen.
        destruct Hring as (_ & _ & Hblocks & _).
        unfold slot, p in *. rewrite size__eq in *.
        change (2 ^ 8) with 256 in *.
        destruct (Z_lt_le_dec (sequence st) 256) as [Hsmall | Hbig];
          [| right; exact Hbig].
        left. rewrite Z.mod_small in Hother by lia. lia.
  - apply (control_ok_running st); auto.
Qed.

Lemma producer_iter_Inv st :
  Inv st -> producer_thread st <> Finished ->
  exists st', producer_iter st = Done st' /\ Inv st'.
Proof.
  intros Hinv Hrun. unfold producer_iter.
  destruct (gate (sequence st) (consumer_sequences st)) eqn:Hgate; cbn [negb].
  - apply publish_Inv, overflow_check_ready; assumption.
  - exists st. split; [reflexivity | exact Hinv].
Qed.

Lemma producer_Inv st : Inv st -> exists st', producer st = Done st' /\ Inv st'.
Proof.
  intros Hinv. unfold producer.
  destruct (producer_thread st) eqn:Hthread;
    try (exists st; split; [reflexivity | exact Hinv]).
  destruct (producer_running st).
  - apply producer_iter_Inv; [exact Hinv | congruence].
  - eexists. split; [reflexivity |].
    destruct Hinv as [Hcnt Hslots (Htl & Hup & Hdown & Hjoined & Hfin)].
    split; [exact Hcnt | exact Hslots |].
    unfold control_ok. fields.
    split; [exact Htl |]. split; [exact Hup |]. split; [exact Hdown |].
    split; [reflexivity | exact Hfin].
Qed.

(** *** consumer *)

(** A slot a consumer may read has been written. *)
Lemma readable_slot st c blk :
  slots_ok st -> 0 <= c < sequence st -> sequence st - c <= size_ ->
  RingBuffer.buffer (buffer st) !! slot p c = Some blk ->
  Block.size_ blk <= 30.
Proof.
  intros [Hring Hfull] Hc Hnear Hblk. apply (Hfull _ _ Hblk).
  unfold slot, p. rewrite size__eq in *. change (2 ^ 8) with 256.
  destruct (Z_lt_le_dec (sequence st) 256) as [Hsmall | Hbig];
    [left | right; exact Hbig].
  rewrite Z.mod_small by lia. lia.
Qed.

Lemma Read_Inv st c :
  slots_ok st -> 0 <= c < sequence st -> sequence st - c <= size_ ->
  exists r, RingBuffer.Read (buffer st) (to_uint32 c) local_data = Done r.
Proof.
  intros Hslots Hc Hnear. pose proof Hslots as [Hring _].
  destruct (at_index_slot p (buffer st) (to_uint32 c) Hring)
    as (blk & Hblk & _ & _).
  pose proof (slot_uint32 c) as Hslot.
  pose proof Hblk as Hblk'. rewrite Hslot in Hblk'.
  pose proof (readable_slot st c blk Hslots Hc Hnear Hblk') as Hsize.
  eexists. apply (Read_done p _ _ _ blk Hring Hblk).
  - unfold Block.data_len. lia.
  - simpl length. lia.
Qed.

(** The state after consumer [i] has taken the sequence number [c]. *)
Lemma advance_Inv st i c :
  Inv st -> 0 <= i ->
  consumer_sequences st !! Z.to_nat i = Some c ->
  consumer_threads st !! Z.to_nat i <> Some Finished ->
  c < sequence st ->
  (forall n, consumer_sequences st !! S (Z.to_nat i) = Some n -> c < n) ->
  Inv (set_consumer_sequences
         (<[Z.to_nat i := add64 c 1]> (consumer_sequences st)) st).
Proof.
  intros [(Hlen & Hseq & Hcs & Hchain) Hslots Hctl] Hi Hc Hthread Hlt Hup.
  destruct (Hcs _ _ Hc) as [Hrange Hnear].
  assert (add64 c 1 = c + 1) as -> by (apply add64_exact; lia).
  pose proof (lookup_lt_Some _ _ _ Hc) as Hk.
  split.
  - unfold counters_ok. fields. rewrite length_insert.
    split; [exact Hlen |]. split; [exact Hseq |]. split.
    + intros j cj Hj.
      apply list_lookup_insert_Some in Hj as [(_ & <- & _) | [_ Hj]];
        [lia | exact (Hcs j cj Hj)].
    + intros j cj cj' Hj Hj'.
      apply list_lookup_insert_Some in Hj as [(Heq & <- & _) | [Hne Hj]].
      * rewrite list_lookup_insert_ne in Hj' by lia.
        rewrite <- Heq in Hj'. specialize (Hup cj' Hj'). lia.
      * apply list_lookup_insert_Some in Hj' as [(Heq & <- & _) | [_ Hj']].
        -- rewrite Heq in Hc. pose proof (Hchain j cj c Hj Hc). lia.
        -- exact (Hchain j cj cj' Hj Hj').
  - apply (slots_ok_same st); [reflexivity | reflexivity | exact Hslots].
  - destruct Hctl as (Htl & Hflag & Hdown & Hjoined & Hfin).
    unfold control_ok. fields.
    split; [exact Htl |]. split; [exact Hflag |]. split; [exact Hdown |].
    split; [exact Hjoined |]. intros j Hj.
    destruct (Hfin j Hj) as [Hoff Hdone]. split; [exact Hoff |].
    rewrite list_lookup_insert_ne; [exact Hdone |].
    intros <-. contradiction.
Qed.

Lemma consumer_iter_Inv st i c :
  Inv st -> 0 <= i ->
  consumer_sequences st !! Z.to_nat i = Some c ->
  consumer_threads st !! Z.to_nat i <> Some Finished ->
  exists r, consumer_iter i (next_of i) st = Done r /\ Inv (fst r).
Proof.
  intros Hinv Hi Hc Hthread.
  pose proof Hinv as [(Hlen & Hseq & Hcs & Hchain) Hslots Hctl].
  destruct (Hcs _ _ Hc) as [Hrange Hnear].
  pose proof (lookup_lt_Some _ _ _ Hc) as Hk. rewrite Hlen in Hk.
  unfold numConsumers in Hk.
  assert (at_index (consumer_sequences st) i = Done c) as Hat
    by (apply at_index_Done; auto).
  assert (forall ok,
            (ok = true -> c < sequence st /\
               forall n, consumer_sequences st !! S (Z.to_nat i) = Some n -> c < n) ->
            exists r,
              (if ok
               then let* r := RingBuffer.Read (buffer st) (to_uint32 c) local_data in
                    Done (set_consumer_sequences
                            (<[Z.to_nat i := add64 c 1]> (consumer_sequences st)) st,
                          Some r)
               else Done (st, None)) = Done r /\ Inv (fst r)) as Hbody.
  { intros [|] Hok.
    - destruct (Hok eq_refl) as [Hlt Hup].
      destruct (Read_Inv st c Hslots) as [r Hr]; [lia | lia |].
      rewrite Hr. cbn [bind]. eexists. split; [reflexivity |]. cbn [fst].
      apply advance_Inv; assumption.
    - eexists. split; [reflexivity | exact Hinv]. }
  unfold consumer_iter, consumer_admitted. rewrite Hat. cbn [bind].
  destruct (Z.ltb_spec c (sequence st)) as [Hlt | Hge].
  2: { cbn [bind]. apply (Hbody false). discriminate. }
  unfold next_of, numConsumers.
  destruct (Z.eqb_spec i (4 - 1)) as [Hlast | Hinner].
  - rewrite Z.eqb_refl. cbn [bind]. apply (Hbody true). intros _.
    split; [exact Hlt |].
    intros n Hn. apply lookup_lt_Some in Hn. rewrite Hlen in Hn.
    unfold numConsumers in Hn. lia.
  - destruct (Z.eqb_spec (i + 1) (-1)) as [Hm | _]; [lia |].
    assert (is_Some (consumer_sequences st !! S (Z.to_nat i))) as [n Hn].
    { apply lookup_lt_is_Some. rewrite Hlen. unfold numConsumers. lia. }
    assert (at_index (consumer_sequences st) (i + 1) = Done n) as Hatn.
    { apply at_index_Done. split; [lia |].
      replace (Z.to_nat (i + 1)) with (S (Z.to_nat i)) by lia. exact Hn. }
    rewrite Hatn. cbn [bind]. apply (Hbody (c <? n)). intros Hok.
    split; [exact Hlt |]. intros n' Hn'. rewrite Hn in Hn'. injection Hn' as <-.
    apply Z.ltb_lt, Hok.
Qed.

Lemma consumer_Inv i st : Inv st -> exists st', consumer i st = Done st' /\ Inv st'.
Proof.
  intros Hinv. unfold consumer.
  destruct (Z.ltb_spec i 0) as [Hneg | Hi];
    [exists st; split; [reflexivity | exact Hinv] |].
  destruct (consumer_threads st !! Z.to_nat i) as [[| |] |] eqn:Hthread;
    try (exists st; split; [reflexivity | exact Hinv]).
  pose proof Hinv as [(Hlen & Hseq & Hcs & Hchain) Hslots Hctl].
  assert (is_Some (consumer_sequences st !! Z.to_nat i)) as [c Hc].
  { apply lookup_lt_is_Some. rewrite Hlen.
    destruct Hctl as (<- & _). exact (lookup_lt_Some _ _ _ Hthread). }
  assert (at_index (consumer_sequences st) i = Done c) as Hat
    by (apply at_index_Done; auto).
  assert (exists r, consumer_iter i (next_of i) st = Done r /\ Inv (fst r))
    as (r & Hr & Hinv').
  { apply (consumer_iter_Inv st i c); auto. rewrite Hthread. discriminate. }
  unfold consumer_continues. rewrite Hat. cbn [bind].
  destruct (consumer_running st) eqn:Hflag; cbn [bind].
  { rewrite Hr. cbn [bind]. eauto. }
  destruct (Z.ltb_spec c (sequence st)) as [Hlt | Hge].
  { rewrite Hr. cbn [bind]. eauto. }
  eexists. split; [reflexivity |].
  split; [exact (conj Hlen (conj Hseq (conj Hcs Hchain))) | exact Hslots |].
  destruct Hctl as (Htl & Hup & Hdown & Hjoined & Hfin).
  unfold control_ok. fields. rewrite length_insert.
  split; [exact Htl |]. split; [exact Hup |]. split; [exact Hdown |].
  split; [exact Hjoined |]. intros j Hj.
  apply list_lookup_insert_Some in Hj as [(Heq & _ & _) | [_ Hj]];
    [| exact (Hfin j Hj)].
  split; [exact Hflag |]. destruct (Hcs _ _ Hc) as [Hrange _].
  rewrite <- Heq, Hc. f_equal. lia.
Qed.

(** *** Every schedule *)

Lemma step_Inv t st : Inv st -> exists st', step t st = Done st' /\ Inv st'.
Proof.
  intros Hinv. destruct t as [| | i]; cbn [step].
  - eexists. split; [reflexivity | apply main_Inv, Hinv].
  - apply producer_Inv, Hinv.
  - apply consumer_Inv, Hinv.
Qed.


(** ** The reachable states *)

Section Reachable.

(** What the blocks hold when the ring is allocated: any bytes, any length. *)
Variable fresh : nat -> Block.t.
Hypothesis fresh_ok : forall i, block_ok (fresh i).

Lemma reachable_Inv st : reachable fresh st -> Inv st.
Proof.
  intros Hreach. induction Hreach as [| t st st1 _ IH Hstep].
  - apply Inv_init, fresh_ok.
  - destruct (step_Inv t st IH) as (st' & Hstep' & Hinv').
    rewrite Hstep in Hstep'. injection Hstep' as <-. exact Hinv'.
Qed.

Lemma run_reachable sched : forall st st',
  reachable fresh st -> run sched st = Done st' -> reachable fresh st'.
Proof.
  induction sched as [| t sched IH]; intros st st' Hreach Hrun; cbn [run] in Hrun.
  - injection Hrun as <-. exact Hreach.
  - destruct (step t st) as [st1 |] eqn:Hstep; [| discriminate].
    cbn [bind] in Hrun.
    exact (IH st1 st' (reachable_step fresh t st st1 Hreach Hstep) Hrun).
Qed.

Lemma reachable_run st :
  reachable fresh st -> exists sched, run sched (init fresh) = Done st.
Proof.
  intros Hreach. induction Hreach as [| t st st1 _ [sched IH] Hstep].
  - exists []. reflexivity.
  - exists (sched ++ [t]). revert IH. generalize (init fresh).
    induction sched as [| t0 sched IHs]; intros st0 Hrun; cbn [run app] in *.
    + injection Hrun as ->. rewrite Hstep. reflexivity.
    + destruct (step t0 st0) as [st2 |]; [| discriminate].
      cbn [bind] in *. exact (IHs st2 Hrun).
Qed.

(** ** The safety invariant (C1) *)



(** ** The chain of consumers (C4) *)



(** ** Consumers drain the ring before they return (C7) *)



End Reachable.

(** ** Runs of the program *)




(** * More of the program: what each thread touches, shutdown, delivery *)

(** ** Vocabulary *)



(** ** What a step of each thread touches *)




(** A step of consumer [i] does one of four things: nothing because the
    thread does not run, nothing because it is not admitted, take one
    sequence number, or return. *)
Lemma consumer_cases i st st' :
  consumer i st = Done st' ->
  ((i < 0 \/ consumer_threads st !! Z.to_nat i <> Some Running) /\ st' = st) \/
  (0 <= i /\ consumer_threads st !! Z.to_nat i = Some Running /\
   (consumer_running st = true \/
    exists c, consumer_sequences st !! Z.to_nat i = Some c /\ c < sequence st) /\
   consumer_admitted i (next_of i) st = Done false /\ st' = st) \/
  (exists c,
     0 <= i /\ consumer_threads st !! Z.to_nat i = Some Running /\
     consumer_sequences st !! Z.to_nat i = Some c /\ c < sequence st /\
     consumer_admitted i (next_of i) st = Done true /\
     st' = set_consumer_sequences
             (<[Z.to_nat i := add64 c 1]> (consumer_sequences st)) st) \/
  (exists c,
     0 <= i /\ consumer_threads st !! Z.to_nat i = Some Running /\
     consumer_sequences st !! Z.to_nat i = Some c /\ sequence st <= c /\
     consumer_running st = false /\
     st' = set_consumer_threads
             (<[Z.to_nat i := Finished]> (consumer_threads st)) st).
Proof.
  unfold consumer.
  destruct (Z.ltb_spec i 0) as [Hneg | Hi]; [intros [= <-]; auto |].
  destruct (consumer_threads st !! Z.to_nat i) as [[| |] |] eqn:Hthread;
    try (intros [= <-]; left; split; [right; discriminate | reflexivity]).
  assert ((let* r := consumer_iter i (next_of i) st in Done (fst r)) = Done st' ->
          (consumer_admitted i (next_of i) st = Done false /\ st' = st) \/
          exists c,
            consumer_sequences st !! Z.to_nat i = Some c /\ c < sequence st /\
            consumer_admitted i (next_of i) st = Done true /\
            st' = set_consumer_sequences
                    (<[Z.to_nat i := add64 c 1]> (consumer_sequences st)) st)
    as Hbody.
  { unfold consumer_iter.
    destruct (consumer_admitted i (next_of i) st) as [[|] |] eqn:Hadm;
      cbn [bind]; [| intros [= <-]; auto | discriminate].
    destruct (at_index (consumer_sequences st) i) as [c |] eqn:Hc;
      cbn [bind]; [| discriminate].
    destruct (RingBuffer.Read _ _ _) as [r |]; cbn [bind]; [| discriminate].
    intros [= <-]. right. exists c.
    apply at_index_Done in Hc as [_ Hc].
    split; [exact Hc |]. split; [| split; [reflexivity | reflexivity]].
    unfold consumer_admitted in Hadm.
    rewrite (proj2 (at_index_Done _ _ _) (conj Hi Hc)) in Hadm.
    cbn [bind] in Hadm.
    destruct (Z.ltb_spec c (sequence st)); [assumption | discriminate]. }
  assert ((consumer_running st = true \/
           exists c, consumer_sequences st !! Z.to_nat i = Some c /\
                     c < sequence st) ->
          (let* r := consumer_iter i (next_of i) st in Done (fst r)) = Done st' ->
          (0 <= i /\ Some Running = Some Running /\
           (consumer_running st = true \/
            exists c, consumer_sequences st !! Z.to_nat i = Some c /\
                      c < sequence st) /\
           consumer_admitted i (next_of i) st = Done false /\ st' = st) \/
          (exists c,
             0 <= i /\ Some Running = Some Running /\
             consumer_sequences st !! Z.to_nat i = Some c /\ c < sequence st /\
             consumer_admitted i (next_of i) st = Done true /\
             st' = set_consumer_sequences
                     (<[Z.to_nat i := add64 c 1]> (consumer_sequences st)) st))
    as Hiter.
  { intros Hmore Hrun.
    destruct (Hbody Hrun) as [[Hno ->] | (c & Hc & Hlt & Hadm & ->)].
    - left. auto.
    - right. exists c. auto 10. }
  unfold consumer_continues.
  destruct (consumer_running st) eqn:Hflag; cbn [bind].
  { intros Hrun. destruct (Hiter (or_introl eq_refl) Hrun) as [H | H]; auto. }
  destruct (at_index (consumer_sequences st) i) as [c |] eqn:Hc;
    cbn [bind]; [| discriminate].
  apply at_index_Done in Hc as [_ Hc].
  destruct (Z.ltb_spec c (sequence st)) as [Hlt | Hge].
  { intros Hrun.
    destruct (Hiter (or_intror (ex_intro _ c (conj Hc Hlt))) Hrun) as [H | H];
      auto. }
  intros [= <-]. right. right. right. exists c. repeat split; auto.
Qed.

(** ** The threads follow [main] *)








(** ** Shutting down *)
































(** ** What is written and what is read *)










Lemma same_slot a b : a mod size_ = b mod size_ -> slot p a = slot p b.
Proof. unfold slot. change (2 ^ p) with size_. intros ->. reflexivity. Qed.

Lemma other_slot a b : 0 < a - b < size_ -> slot p a <> slot p b.
Proof.
  unfold slot. change (2 ^ p) with size_. rewrite size__eq. intros Hab Heq.
  pose proof (Z.mod_pos_bound a 256 eq_refl).
  pose proof (Z.mod_pos_bound b 256 eq_refl).
  assert (a mod 256 = b mod 256) as Hmod by lia.
  assert ((a - b) mod 256 = 0) as Hzero
    by (rewrite Zminus_mod, Hmod, Z.sub_diag; reflexivity).
  rewrite Z.mod_small in Hzero by lia. lia.
Qed.


(** The overflow check moves every counter down by the same multiple of
    [size_], zero when it does not rebase. *)
Lemma overflow_check_shift st :
  Inv st -> gate (sequence st) (consumer_sequences st) = true ->
  exists d,
    d mod size_ = 0 /\
    sequence (overflow_check st) = sequence st - d /\
    consumer_sequences (overflow_check st)
    = (fun c => c - d) <$> consumer_sequences st /\
    buffer (overflow_check st) = buffer st.
Proof.
  intros [Hcnt _ _] Hgate.
  pose proof (admitted_near st Hcnt Hgate) as Hnear.
  destruct Hcnt as (_ & Hseq & Hcs & _).
  unfold overflow_check.
  destruct (Z.eqb_spec (sequence st) ull_max) as [Hmax | Hne].
  - exists 18446744073709550848. split; [reflexivity |].
    unfold rebase. fields. split; [rewrite Hmax; reflexivity |].
    split; [| reflexivity].
    apply list_fmap_ext. intros i c Hc. apply rebase_exact.
    pose proof (Hnear i c Hc). destruct (Hcs i c Hc). lia.
  - exists 0. split; [reflexivity |]. split; [lia |]. split; [| reflexivity].
    rewrite <- (list_fmap_id (consumer_sequences st)) at 1.
    apply list_fmap_ext. intros i c _. unfold id. lia.
Qed.













(** * Further properties *)

(** ** The ring buffer on its own *)

(** X1. For a power below 31, where [1 << power] is an [int], the
    constructor makes a ring of [2 ^ power] blocks with the mask
    [2 ^ power - 1], and for every block index the masked index
    [block_idx & l], which [Write] and [Read] use, is inside the ring: it is
    the block [block_idx mod 2 ^ power]. *)
Theorem ring_new_indexing (fresh : nat -> Block.t) (power block_idx : Z) :
  0 <= power < 31 ->
  let b := RingBuffer.new fresh power in
  Z.of_nat (length (RingBuffer.buffer b)) = 2 ^ power /\
  RingBuffer.l b = 2 ^ power - 1 /\
  (forall i, Z.of_nat i < 2 ^ power -> RingBuffer.buffer b !! i = Some (fresh i)) /\
  0 <= Z.land block_idx (RingBuffer.l b) < 2 ^ power /\
  at_index (RingBuffer.buffer b) (Z.land block_idx (RingBuffer.l b))
  = Done (fresh (Z.to_nat (block_idx mod 2 ^ power))).
Proof.
  intros Hp b.
  assert (0 < 2 ^ power < 2 ^ 32) as Hpow.
  { split; [apply Z.pow_pos_nonneg; lia | apply Z.pow_lt_mono_r; lia]. }
  assert (to_uint32 (Z.shiftl 1 power) = 2 ^ power) as Hsize.
  { rewrite Z.shiftl_1_l. apply Z.mod_small. lia. }
  assert (RingBuffer.l b = 2 ^ power - 1) as Hl.
  { unfold b, RingBuffer.new. cbn [RingBuffer.l]. rewrite Hsize.
    apply Z.mod_small. lia. }
  assert (forall i, Z.of_nat i < 2 ^ power ->
                    RingBuffer.buffer b !! i = Some (fresh i)) as Hblocks.
  { intros i Hi. unfold b, RingBuffer.new. cbn [RingBuffer.buffer].
    rewrite Hsize, list_lookup_fmap, lookup_seq_lt by lia. reflexivity. }
  pose proof (Z.mod_pos_bound block_idx (2 ^ power) ltac:(lia)) as Hmod.
  split; [| split; [exact Hl | split; [exact Hblocks |]]].
  - unfold b, RingBuffer.new. cbn [RingBuffer.buffer].
    rewrite Hsize, length_fmap, length_seq. lia.
  - rewrite Hl, land_mask by lia. split; [exact Hmod |].
    apply at_index_Done. split; [lia |]. apply Hblocks. lia.
Qed.

Lemma ring_new_indexing_witness :
  let b := RingBuffer.new littered 0 in
  Z.of_nat (length (RingBuffer.buffer b)) = 1 /\
  RingBuffer.l b = 0 /\
  at_index (RingBuffer.buffer b) (Z.land 12345 (RingBuffer.l b))
  = Done (littered 0%nat).
Proof.
  destruct (ring_new_indexing littered 0 12345 ltac:(lia))
    as (Hlen & Hl & _ & _ & Hat).
  split; [exact Hlen |]. split; [exact Hl | exact Hat].
Defined.

(** What [Write] does, for every length. *)
Lemma Write_total k b block_idx data size :
  ring_ok k b -> 0 <= size ->
  exists old,
    RingBuffer.buffer b !! slot k block_idx = Some old /\
    RingBuffer.Write b block_idx data size
    = if (size <=? Block.data_len) && (size <=? Z.of_nat (length data))
      then Done {| RingBuffer.buffer :=
                     <[slot k block_idx := written old data size]>
                       (RingBuffer.buffer b);
                   RingBuffer.l := RingBuffer.l b |}
      else Overrun.
Proof.
  intros Hok Hsize.
  destruct (at_index_slot k b block_idx Hok) as (old & Hold & _ & _).
  exists old. split; [exact Hold |].
  destruct (Z.leb_spec size Block.data_len) as [Hfit | Hbig];
    destruct (Z.leb_spec size (Z.of_nat (length data))) as [Hdata | Hshort];
    cbn [andb].
  - destruct (Write_done k b block_idx data size Hok (conj Hsize Hfit) Hdata)
      as (old' & Hold' & HW).
    rewrite Hold in Hold'. injection Hold' as <-. exact HW.
  - destruct (RingBuffer.Write b block_idx data size) as [b1 |] eqn:HW;
      [| reflexivity].
    destruct (Write_inv k b block_idx data size b1 Hok Hsize HW) as (_ & H & _).
    lia.
  - apply (Write_overrun k b block_idx data size Hok Hbig).
  - apply (Write_overrun k b block_idx data size Hok Hbig).
Qed.

(** X2. A call of [Write] that returns changes the one slot [block_idx & l]
    and nothing else: the mask, the number of blocks and every other slot
    are as before, and [Read] of any other slot returns what it returned
    before. *)
Theorem Write_changes_one_slot
  (k : Z) (b b1 : RingBuffer.t) (block_idx : Z) (data : list byte) (size : Z) :
  ring_ok k b -> 0 <= size ->
  RingBuffer.Write b block_idx data size = Done b1 ->
  ring_ok k b1 /\
  RingBuffer.l b1 = RingBuffer.l b /\
  length (RingBuffer.buffer b1) = length (RingBuffer.buffer b) /\
  (forall j, j <> slot k block_idx ->
     RingBuffer.buffer b1 !! j = RingBuffer.buffer b !! j) /\
  (forall other out, slot k other <> slot k block_idx ->
     RingBuffer.Read b1 other out = RingBuffer.Read b other out).
Proof.
  intros Hok Hsize HW.
  pose proof (Write_ring_ok k b block_idx data size b1 Hok Hsize HW) as Hok1.
  destruct (Write_inv k b block_idx data size b1 Hok Hsize HW)
    as (_ & _ & old & _ & Hb1).
  assert (forall j, j <> slot k block_idx ->
            RingBuffer.buffer b1 !! j = RingBuffer.buffer b !! j) as Hother.
  { intros j Hj. rewrite Hb1. cbn [RingBuffer.buffer].
    apply list_lookup_insert_ne. congruence. }
  split; [exact Hok1 |]. split; [rewrite Hb1; reflexivity |].
  split; [rewrite Hb1; cbn [RingBuffer.buffer]; apply length_insert |].
  split; [exact Hother |]. intros other out Hne.
  unfold RingBuffer.Read, at_index.
  rewrite (land_slot k b1 other Hok1), (land_slot k b other Hok).
  rewrite (Hother _ Hne).
  replace (RingBuffer.l b1) with (RingBuffer.l b) by (rewrite Hb1; reflexivity).
  reflexivity.
Qed.

Lemma Write_changes_one_slot_witness :
  let b := RingBuffer.new littered p in
  exists b1,
    RingBuffer.Write b 5 (c_str (message_of 5)) 11 = Done b1 /\
    RingBuffer.Read b1 6 local_data = RingBuffer.Read b 6 local_data /\
    RingBuffer.buffer b1 !! 7%nat = RingBuffer.buffer b !! 7%nat.
Proof.
  intros b.
  assert (ring_ok p b) as Hok
    by (apply ring_ok_new; [unfold p; lia | apply littered_ok]).
  destruct (RingBuffer.Write b 5 (c_str (message_of 5)) 11) as [b1 |] eqn:HW;
    [| vm_compute in HW; discriminate].
  exists b1. split; [reflexivity |].
  destruct (Write_changes_one_slot p b b1 5 _ 11 Hok ltac:(lia) HW)
    as (_ & _ & _ & Hother & Hread).
  split; [apply Hread | apply Hother]; vm_compute; congruence.
Defined.

(** X3. Two calls of [Write] for different slots commute, also when one of
    them runs past the payload array. *)
Theorem Write_commutes
  (k : Z) (b : RingBuffer.t) (i1 i2 : Z) (d1 d2 : list byte) (n1 n2 : Z) :
  ring_ok k b -> 0 <= n1 -> 0 <= n2 ->
  slot k i1 <> slot k i2 ->
  (let* b1 := RingBuffer.Write b i1 d1 n1 in RingBuffer.Write b1 i2 d2 n2)
  = (let* b2 := RingBuffer.Write b i2 d2 n2 in RingBuffer.Write b2 i1 d1 n1).
Proof.
  intros Hok Hn1 Hn2 Hne.
  destruct (Write_total k b i1 d1 n1 Hok Hn1) as (old1 & Hold1 & HW1).
  destruct (Write_total k b i2 d2 n2 Hok Hn2) as (old2 & Hold2 & HW2).
  rewrite HW1, HW2.
  destruct ((n1 <=? Block.data_len) && (n1 <=? Z.of_nat (length d1))) eqn:Hc1;
    destruct ((n2 <=? Block.data_len) && (n2 <=? Z.of_nat (length d2))) eqn:Hc2;
    cbn [bind]; try reflexivity.
  - pose proof HW1 as HW1'.
    pose proof HW2 as HW2'.
    pose proof (Write_ring_ok k b i1 d1 n1 _ Hok Hn1 HW1') as Hok1.
    pose proof (Write_ring_ok k b i2 d2 n2 _ Hok Hn2 HW2') as Hok2.
    destruct (Write_total k _ i2 d2 n2 Hok1 Hn2) as (old2' & Hold2' & ->).
    destruct (Write_total k _ i1 d1 n1 Hok2 Hn1) as (old1' & Hold1' & ->).
    cbn [andb] in *. rewrite ?Hc1, ?Hc2. cbn [RingBuffer.buffer RingBuffer.l] in *.
    rewrite list_lookup_insert_ne in Hold2' by exact Hne.
    rewrite list_lookup_insert_ne in Hold1' by congruence.
    rewrite Hold2 in Hold2'. rewrite Hold1 in Hold1'.
    injection Hold2' as <-. injection Hold1' as <-.
    rewrite list_insert_insert_ne by congruence. reflexivity.
  - pose proof HW1 as HW1'.
    pose proof (Write_ring_ok k b i1 d1 n1 _ Hok Hn1 HW1') as Hok1.
    destruct (Write_total k _ i2 d2 n2 Hok1 Hn2) as (old2' & _ & ->).
    rewrite ?Hc2. reflexivity.
  - pose proof HW2 as HW2'.
    pose proof (Write_ring_ok k b i2 d2 n2 _ Hok Hn2 HW2') as Hok2.
    destruct (Write_total k _ i1 d1 n1 Hok2 Hn1) as (old1' & _ & ->).
    rewrite ?Hc1. reflexivity.
Qed.

Lemma Write_commutes_witness :
  let b := RingBuffer.new littered p in
  (let* b1 := RingBuffer.Write b 5 (c_str (message_of 5)) 11 in
   RingBuffer.Write b1 262 (c_str (message_of 262)) 13)
  = (let* b2 := RingBuffer.Write b 262 (c_str (message_of 262)) 13 in
     RingBuffer.Write b2 5 (c_str (message_of 5)) 11).
Proof.
  apply (Write_commutes p (RingBuffer.new littered p)).
  - apply ring_ok_new; [unfold p; lia | apply littered_ok].
  - lia.
  - lia.
  - vm_compute. congruence.
Defined.

(** X4. [Read] trusts the length stored in the slot. It returns exactly when
    that length is at most 63 and fits the caller's buffer, and then it
    returns the length and replaces that many bytes of the buffer by the
    payload, leaving the rest of the buffer as it was. A slot that holds a
    longer length, as a block that was never written may, makes the copy run
    past an array. *)
Theorem Read_defined_iff
  (k : Z) (b : RingBuffer.t) (block_idx : Z) (out : list byte) (blk : Block.t) :
  ring_ok k b ->
  RingBuffer.buffer b !! Z.to_nat (Z.land block_idx (RingBuffer.l b)) = Some blk ->
  let n := Block.size_ blk in
  (n <= Block.data_len /\ n <= Z.of_nat (length out) ->
   RingBuffer.Read b block_idx out
   = Done (take (Z.to_nat n) (Block.data blk) ++ drop (Z.to_nat n) out, n)) /\
  (Block.data_len < n \/ Z.of_nat (length out) < n ->
   RingBuffer.Read b block_idx out = Overrun) /\
  (forall d m, RingBuffer.Read b block_idx out = Done (d, m) ->
     m = n /\ length d = length out /\
     drop (Z.to_nat n) d = drop (Z.to_nat n) out).
Proof.
  intros Hok Hblk n. rewrite (land_slot k b block_idx Hok) in Hblk.
  destruct (at_index_slot k b block_idx Hok) as (blk' & Hblk' & [Hlen Hrange] & Hat).
  rewrite Hblk in Hblk'. injection Hblk' as <-.
  unfold Block.data_len in *.
  assert (n <= 63 /\ n <= Z.of_nat (length out) ->
          RingBuffer.Read b block_idx out
          = Done (take (Z.to_nat n) (Block.data blk) ++ drop (Z.to_nat n) out, n))
    as Hdone.
  { intros [Hfit Hout]. apply (Read_done k b block_idx out blk Hok Hblk); assumption. }
  assert (63 < n \/ Z.of_nat (length out) < n ->
          RingBuffer.Read b block_idx out = Overrun) as Hover.
  { intros Hbig. unfold RingBuffer.Read. rewrite Hat. cbn [bind]. fold n.
    unfold memcpy.
    destruct (Z.leb_spec n (Z.of_nat (length (Block.data blk))));
      destruct (Z.leb_spec n (Z.of_nat (length out))); cbn [andb bind];
      try reflexivity.
    lia. }
  split; [exact Hdone |]. split; [exact Hover |]. intros d m Hread.
  destruct (Z_le_gt_dec n 63) as [Hfit | Hbig];
    [| rewrite Hover in Hread by lia; discriminate].
  destruct (Z_le_gt_dec n (Z.of_nat (length out))) as [Hout | Hshort];
    [| rewrite Hover in Hread by lia; discriminate].
  rewrite (Hdone (conj Hfit Hout)) in Hread. injection Hread as <- <-.
  split; [reflexivity |].
  assert (length (take (Z.to_nat n) (Block.data blk)) = Z.to_nat n) as Htake
    by (rewrite length_take; lia).
  split.
  - rewrite length_app, length_drop, Htake. lia.
  - rewrite drop_app_length'; [reflexivity | symmetry; exact Htake].
Qed.

Lemma Read_defined_iff_witness :
  RingBuffer.Read (RingBuffer.new littered p) 3 local_data = Overrun /\
  RingBuffer.Read (RingBuffer.new zeroed p) 3 local_data = Done (local_data, 0).
Proof.
  split.
  - apply (Read_defined_iff p (RingBuffer.new littered p) 3 local_data (littered 3%nat)).
    + apply ring_ok_new; [unfold p; lia | apply littered_ok].
    + reflexivity.
    + left. vm_compute. reflexivity.
  - apply (Read_defined_iff p (RingBuffer.new zeroed p) 3 local_data (zeroed 3%nat)).
    + apply ring_ok_new; [unfold p; lia | apply zeroed_ok].
    + reflexivity.
    + split; vm_compute; discriminate.
Defined.

(** ** The message *)

Definition is_decimal (b : byte) : Prop := 0 <= digit_value b <= 9.

Lemma digit_decimal d : is_decimal (digit d).
Proof.
  unfold is_decimal.
  destruct d as [| d | d]; [vm_compute; split; discriminate | |
                            vm_compute; split; discriminate].
  do 4 (destruct d as [d | d |]; try (vm_compute; split; discriminate)).
Qed.

Lemma digits_decimal fuel : forall n acc,
  Forall is_decimal acc -> Forall is_decimal (digits fuel n acc).
Proof.
  induction fuel as [| fuel IH]; intros n acc Hacc; cbn [digits].
  - exact Hacc.
  - destruct (n <? 10).
    + constructor; [apply digit_decimal | exact Hacc].
    + apply IH. constructor; [apply digit_decimal | exact Hacc].
Qed.

(** X5. The message of a sequence number is ["Message: "] followed by decimal
    digits only, and these digits read back as the number. So messages of
    different sequence numbers differ, and a message holds no NUL byte: the
    terminator that [c_str] adds is the only one in the bytes passed to
    [Write]. *)
Theorem message_identifies_sequence (s : Z) :
  0 <= s ->
  take 9 (message_of s) = Message_prefix /\
  Forall is_decimal (drop 9 (message_of s)) /\
  decimal_value (drop 9 (message_of s)) = s /\
  (x00 ∉ message_of s) /\
  (forall t, 0 <= t -> message_of t = message_of s -> t = s).
Proof.
  intros Hs.
  assert (forall t, drop 9 (message_of t) = to_string t) as Hdrop
    by (intros t; reflexivity).
  assert (Forall is_decimal (to_string s)) as Hdec
    by (apply digits_decimal; constructor).
  split; [reflexivity |]. rewrite Hdrop.
  split; [exact Hdec |]. split; [apply to_string_value; exact Hs |]. split.
  - unfold message_of. apply not_elem_of_app. split.
    + unfold Message_prefix. intros Hin.
      repeat (apply elem_of_cons in Hin as [Hin | Hin]; [discriminate Hin |]).
      inversion Hin.
    + intros Hin. rewrite Forall_forall in Hdec. apply Hdec in Hin.
      vm_compute in Hin. destruct Hin as [Hin _]. apply Hin. reflexivity.
  - intros t Ht Heq.
    rewrite <- (to_string_value t Ht), <- (to_string_value s Hs).
    rewrite <- !Hdrop, Heq. reflexivity.
Qed.

Lemma message_identifies_sequence_witness :
  (decimal_value (drop 9 (message_of 18446744073709551615))
   = 18446744073709551615) /\
  (x00 ∉ message_of 18446744073709551615).
Proof.
  destruct (message_identifies_sequence 18446744073709551615 ltac:(lia))
    as (_ & _ & Hvalue & Hnul & _).
  split; [exact Hvalue | exact Hnul].
Defined.

(** ** The gates in the states the program reaches *)









(** ** What a thread leaves alone *)

(** The buffer after a step of the producer: as before, or with the slot of
    its sequence number written. *)
Lemma producer_buffer st st' :
  Inv st -> producer st = Done st' ->
  buffer st' = buffer st \/
  gate (sequence st) (consumer_sequences st) = true /\
  exists blk,
    buffer st'
    = {| RingBuffer.buffer :=
           <[slot p (sequence st) := blk]> (RingBuffer.buffer (buffer st));
         RingBuffer.l := RingBuffer.l (buffer st) |}.
Proof.
  intros Hinv. unfold producer.
  destruct (producer_thread st) eqn:Hthread; try (intros [= <-]; left; reflexivity).
  destruct (producer_running st); [| intros [= <-]; left; reflexivity].
  unfold producer_iter.
  destruct (gate (sequence st) (consumer_sequences st)) eqn:Hgate; cbn [negb];
    [| intros [= <-]; left; reflexivity].
  intros Hpub. right. split; [reflexivity |].
  assert (ready (overflow_check st)) as Hready
    by (apply overflow_check_ready; [exact Hinv | congruence | exact Hgate]).
  destruct (overflow_check_shift st Hinv Hgate) as (d & Hd & Hs & _ & Hb).
  destruct Hready as (_ & Hseq & _ & _ & [Hring _] & _).
  pose proof (message_size (sequence (overflow_check st)) ltac:(lia)) as Hsize.
  destruct (publish_done (message_of (sequence (overflow_check st)))
              (overflow_check st) Hring) as (old & _ & Hdone);
    [unfold Block.data_len; lia |].
  rewrite Hdone in Hpub. injection Hpub as <-. fields.
  assert (slot p (sequence (overflow_check st)) = slot p (sequence st)) as Hslot.
  { apply same_slot. rewrite Hs, Zminus_mod, Hd, Z.sub_0_r, Z.mod_mod;
      [reflexivity | rewrite size__eq; lia]. }
  rewrite Hslot, Hb. eexists. reflexivity.
Qed.

(** X8. A step of the producer changes at most one slot of the ring, the
    slot of its sequence number, and that slot holds nothing a consumer has
    still to read: the slot of every sequence number between a consumer's
    counter and the producer's is after the step what it was before. *)
Theorem producer_spares_unread (fresh : nat -> Block.t) (st st' : state) :
  (forall i, block_ok (fresh i)) -> reachable fresh st ->
  producer st = Done st' ->
  RingBuffer.l (buffer st') = RingBuffer.l (buffer st) /\
  (forall j, j <> slot p (sequence st) ->
     RingBuffer.buffer (buffer st') !! j = RingBuffer.buffer (buffer st) !! j) /\
  (forall i c s, consumer_sequences st !! i = Some c -> c <= s < sequence st ->
     RingBuffer.buffer (buffer st') !! slot p s
     = RingBuffer.buffer (buffer st) !! slot p s).
Proof.
  intros Hfresh Hreach Hstep.
  pose proof (reachable_Inv fresh Hfresh st Hreach) as Hinv.
  destruct (producer_buffer st st' Hinv Hstep) as [Hsame | (Hgate & blk & Hbuf)].
  - rewrite Hsame. repeat split.
  - rewrite Hbuf. cbn [RingBuffer.buffer RingBuffer.l].
    split; [reflexivity |]. split.
    + intros j Hj. apply list_lookup_insert_ne. congruence.
    + intros i c s Hc Hs. apply list_lookup_insert_ne.
      pose proof (admitted_near st (inv_counters st Hinv) Hgate i c Hc) as Hnear.
      apply other_slot. lia.
Qed.

Lemma producer_spares_unread_witness :
  let sched := start_all ++ replicate 300 Producer
               ++ [Consumer 3; Consumer 3; Consumer 2; Consumer 1; Consumer 0] in
  exists st st',
    run sched (init littered) = Done st /\
    producer st = Done st' /\
    sequence st = 256 /\ sequence st' = 257 /\
    consumer_sequences st = [1; 1; 1; 2] /\
    RingBuffer.buffer (buffer st') !! slot p 1
    = RingBuffer.buffer (buffer st) !! slot p 1 /\
    RingBuffer.buffer (buffer st') !! slot p 255
    = RingBuffer.buffer (buffer st) !! slot p 255.
Proof.
  cbv zeta.
  destruct (run (start_all ++ replicate 300 Producer
                 ++ [Consumer 3; Consumer 3; Consumer 2; Consumer 1; Consumer 0])
              (init littered))
    as [st |] eqn:Hrun; [| vm_compute in Hrun; discriminate].
  assert (reachable littered st) as Hreach
    by exact (run_reachable littered _ _ _ (reachable_init littered) Hrun).
  assert (match run (start_all ++ replicate 300 Producer
                     ++ [Consumer 3; Consumer 3; Consumer 2; Consumer 1; Consumer 0])
                  (init littered) with
          | Done s => sequence s = 256 /\ consumer_sequences s = [1; 1; 1; 2] /\
                      match producer s with
                      | Done s' => sequence s' = 257
                      | Overrun => False
                      end
          | Overrun => False
          end) as Hfacts by (vm_compute; repeat split; reflexivity).
  rewrite Hrun in Hfacts. destruct Hfacts as (Hseq & Hcs & Hnext).
  destruct (producer st) as [st' |] eqn:Hstep; [| contradiction].
  destruct (producer_spares_unread littered st st' littered_ok Hreach Hstep)
    as (_ & _ & Hkept).
  exists st, st'. split; [reflexivity |]. split; [exact Hstep |].
  split; [exact Hseq |]. split; [exact Hnext |]. split; [exact Hcs |].
  split; apply (Hkept 0%nat 1); rewrite ?Hcs, ?Hseq; try reflexivity; lia.
Defined.

(** X9. A step of a consumer writes nothing but the consumer's own counter:
    the producer's sequence, the ring, the flags, the producer's thread and
    the other consumers' counters are after the step what they were before,
    and the consumer's own counter is the same or one more, and never more
    than the producer's sequence. *)
Theorem consumer_touches_own_counter
  (fresh : nat -> Block.t) (i : Z) (st st' : state) :
  (forall j, block_ok (fresh j)) -> reachable fresh st ->
  consumer i st = Done st' ->
  sequence st' = sequence st /\ buffer st' = buffer st /\
  producer_running st' = producer_running st /\
  consumer_running st' = consumer_running st /\
  producer_thread st' = producer_thread st /\ main_at st' = main_at st /\
  (forall j, j <> Z.to_nat i ->
     consumer_sequences st' !! j = consumer_sequences st !! j) /\
  (forall c, consumer_sequences st !! Z.to_nat i = Some c ->
     consumer_sequences st' !! Z.to_nat i = Some c \/
     consumer_sequences st' !! Z.to_nat i = Some (c + 1) /\ c + 1 <= sequence st).
Proof.
  intros Hfresh Hreach Hstep.
  destruct (reachable_Inv fresh Hfresh st Hreach) as [(_ & Hseq & Hcs & _) _ _].
  destruct (consumer_cases i st st' Hstep)
    as [[_ ->] | [(_ & _ & _ & _ & ->) | [(c & Hi & _ & Hc & Hlt & _ & ->)
                                         | (c & _ & _ & _ & _ & _ & ->)]]];
    fields; try (repeat split; auto; fail).
  repeat split; try reflexivity.
  - intros j Hj. apply list_lookup_insert_ne. congruence.
  - intros c' Hc'. rewrite Hc in Hc'. injection Hc' as <-. right.
    destruct (Hcs _ _ Hc) as [Hrange _].
    rewrite add64_exact by lia. split; [| lia].
    apply list_lookup_insert_eq. apply lookup_lt_Some in Hc. exact Hc.
Qed.

Lemma consumer_touches_own_counter_witness :
  let sched := start_all ++ replicate 300 Producer
               ++ [Consumer 3; Consumer 3; Consumer 2] in
  exists st st',
    run sched (init littered) = Done st /\
    consumer 2 st = Done st' /\
    consumer_sequences st = [0; 0; 1; 2] /\
    consumer_sequences st' = [0; 0; 2; 2] /\
    sequence st' = sequence st /\ buffer st' = buffer st.
Proof.
  cbv zeta.
  destruct (run (start_all ++ replicate 300 Producer
                 ++ [Consumer 3; Consumer 3; Consumer 2]) (init littered))
    as [st |] eqn:Hrun; [| vm_compute in Hrun; discriminate].
  assert (reachable littered st) as Hreach
    by exact (run_reachable littered _ _ _ (reachable_init littered) Hrun).
  assert (match run (start_all ++ replicate 300 Producer
                     ++ [Consumer 3; Consumer 3; Consumer 2]) (init littered) with
          | Done s => consumer_sequences s = [0; 0; 1; 2] /\
                      match consumer 2 s with
                      | Done s' => consumer_sequences s' = [0; 0; 2; 2]
                      | Overrun => False
                      end
          | Overrun => False
          end) as Hfacts by (vm_compute; repeat split; reflexivity).
  rewrite Hrun in Hfacts. destruct Hfacts as (Hcs & Hnext).
  destruct (consumer 2 st) as [st' |] eqn:Hstep; [| contradiction].
  destruct (consumer_touches_own_counter littered 2 st st' littered_ok Hreach Hstep)
    as (Hseq & Hbuf & _).
  exists st, st'. split; [reflexivity |]. split; [exact Hstep |].
  split; [exact Hcs |]. split; [exact Hnext |]. split; [exact Hseq | exact Hbuf].
Defined.

(** ** The end of the program *)








(** ** Delivery *)













